(** * plsalloc: a shallow embedding of the allocator core and its properties

    The development follows the sources file by file:
    - [BlockedDeque]      blocked_deque.h
    - [Region]            the layout constants, [sysAlloc] and the sizemap of alloc.h
    - [CentralFreeList]   central_free_list.h
    - [LargeHeap]         large_heap.h
    - [ThreadCache], [Alloc]  the thread cache and the four entry points of alloc.h

    Conventions.
    - [size_t], [uint64_t] and [uint32_t] values are integers of [Z] kept in
      range by [wrap64] and [wrap32], written where the C++ operation wraps.
    - Pointers ([char*], [void*]) are addresses in [Z]; pointer arithmetic is
      exact (C++ gives no meaning to a pointer that overflows).
    - An operation that stops the program (a failed [assert], [std::abort], a
      null or out-of-bounds access) returns [Abort] with the place it stopped.
    - Locks are not modelled: every operation is taken as it runs inside its
      critical sections, one operation at a time. *)

From Stdlib Require Import ZArith Lia.
From stdpp Require Import base numbers option list gmap.

Local Open Scope Z_scope.

(** ** Machine integers *)

Definition wrap64 (x : Z) : Z := x mod 2 ^ 64.
Definition wrap32 (x : Z) : Z := x mod 2 ^ 32.
Definition wrap8 (x : Z) : Z := x mod 2 ^ 8.

(** ** Outcomes *)

(** The assertions of the sources, by the function that holds them. *)
Inductive assert_site :=
| ShrinkBlock        (* shrink: assert(block) *)
| ResetCounters      (* reset: assert(phead == ptail) *)
| ResetBlocks        (* reset: assert(bhead == btail) *)
| PopEmpty           (* pop_front, pop_back: assert(!empty()) *)
| SpliceAligned      (* splice_front: assert(!(phead & DQBLOCK_MASK)) *)
| SplicePoint        (* splice_front: assert(splicePoint && splicePoint->next) *)
| MergeSelfAligned   (* merge_front: assert(!(phead & DQBLOCK_MASK)) *)
| MergeListAligned   (* merge_front: assert(!(list.ptail & DQBLOCK_MASK)) *)
| BumpInWindow       (* CentralFreeList::alloc: assert(bumpStart <= bumpEnd) *)
| SysAllocSize       (* sysAlloc: assert(allocSize >= chunkSize) *)
| MmapMem            (* allocContiguous: assert(mem) *)
| MmapEnd.           (* allocContiguous: assert(end >= bump) *)

Inductive failure :=
| AssertFailed (site : assert_site)
| NullDeref          (* a block pointer that is null is dereferenced *)
| DanglingBlock      (* the instance is left pointing at a released block *)
| OutOfBounds        (* an array is indexed outside its bounds *)
| DivByZero          (* an integer division by zero *)
| IllFormedCall      (* a call no overload of the callee accepts *)
| InitExit           (* __plsalloc_init: exit(183) *)
| InvalidFree.       (* LargeHeap::unlocked_dealloc: std::abort() *)

Inductive result (A : Type) :=
| Ok (a : A)
| Abort (f : failure).
Arguments Ok {A} a.
Arguments Abort {A} f.

#[global] Instance result_ret : MRet result := fun A a => Ok a.
#[global] Instance result_bind : MBind result := fun A B k r =>
  match r with
  | Ok a => k a
  | Abort f => Abort f
  end.

Definition assert (c : bool) (site : assert_site) : result unit :=
  if c then Ok tt else Abort (AssertFailed site).

Definition is_ok {A} (r : result A) : Prop :=
  match r with Ok _ => True | Abort _ => False end.

(** ** blocked_deque.h *)

Module BlockedDeque.

Definition DQBLOCK_SIZE : Z := 32.
Definition DQBLOCK_MASK : Z := DQBLOCK_SIZE - 1.

Section Deque.
Context {T : Type} `{Inhabited T}.

(** A [DequeBlock<T>] is its array [elems]; the [prev] and [next] links are
    the order of the list [blocks] below. *)
Definition DequeBlock : Type := list T.

(** [DequeBlock<T>::alloc()]: the slots of a fresh block hold whatever the
    memory held; [inhabitant] stands for that unknown content. *)
Definition newBlock : DequeBlock := replicate (Z.to_nat DQBLOCK_SIZE) inhabitant.

(** The instance. [blocks] is the chain of blocks from [bhead] to [btail]
    along [next]: [bhead] is its first block, [btail] its last, and both are
    null when it is empty. [DequeBlock<T>::dealloc] of a block is the block
    leaving [blocks] without entering another instance. *)
Record t : Type := mk {
  blocks : list DequeBlock;
  phead : Z;   (* uint64_t, first USED position *)
  ptail : Z;   (* uint64_t, first FREE position *)
}.

Definition init : t := mk [] 0 0.

Definition size (d : t) : Z := wrap64 (ptail d - phead d).

Definition empty (d : t) : bool :=
  match blocks d with [] => true | _ => false end.

Definition slot (p : Z) : nat := Z.to_nat (Z.land p DQBLOCK_MASK).

Definition block_aligned (p : Z) : bool := Z.land p DQBLOCK_MASK =? 0.

(** [bhead == btail]: both null, or one and the same block. *)
Definition single (d : t) : bool :=
  match blocks d with [] | [_] => true | _ => false end.

Definition expand (head : bool) (d : t) : t :=
  match blocks d with
  | [] => mk [newBlock] (phead d) (ptail d)
  | bs => if head then mk (newBlock :: bs) (phead d) (ptail d)
          else mk (bs ++ [newBlock]) (phead d) (ptail d)
  end.

(** With one block left, [shrink] moves one end pointer off the chain and
    leaves the other on the released block; the chain model stops there. *)
Definition shrink (head : bool) (d : t) : result t :=
  match blocks d with
  | [] => Abort (AssertFailed ShrinkBlock)
  | [_] => Abort DanglingBlock
  | b :: bs => Ok (if head then mk bs (phead d) (ptail d)
                   else mk (removelast (b :: bs)) (phead d) (ptail d))
  end.

Definition reset (d : t) : result t :=
  _ ← assert (phead d =? ptail d) ResetCounters;
  _ ← assert (single d) ResetBlocks;
  Ok init.

(** [bhead->elems[i] = v] and [btail->elems[i] = v]. *)
Definition write_head (i : nat) (v : T) (d : t) : result t :=
  match blocks d with
  | [] => Abort NullDeref
  | b :: bs => Ok (mk (<[i := v]> b :: bs) (phead d) (ptail d))
  end.

Definition write_tail (i : nat) (v : T) (d : t) : result t :=
  match blocks d with
  | [] => Abort NullDeref
  | bs => Ok (mk (alter (fun b => <[i := v]> b) (Nat.pred (length bs)) bs)
                 (phead d) (ptail d))
  end.

Definition read_head (i : nat) (d : t) : result T :=
  match blocks d with
  | [] => Abort NullDeref
  | b :: _ => Ok (b !!! i)
  end.

Definition read_tail (i : nat) (d : t) : result T :=
  match last (blocks d) with
  | None => Abort NullDeref
  | Some b => Ok (b !!! i)
  end.

Definition push_front (v : T) (d : t) : result t :=
  let d1 := if block_aligned (phead d) then expand true d else d in
  let ph := wrap64 (phead d1 - 1) in
  write_head (slot ph) v (mk (blocks d1) ph (ptail d1)).

Definition push_back (v : T) (d : t) : result t :=
  let d1 := if block_aligned (ptail d) then expand false d else d in
  d2 ← write_tail (slot (ptail d1)) v d1;
  Ok (mk (blocks d2) (phead d2) (wrap64 (ptail d2 + 1))).

Definition front (d : t) : result T := read_head (slot (phead d)) d.
Definition back (d : t) : result T := read_tail (slot (wrap64 (ptail d - 1))) d.

Definition pop_front (d : t) : result t :=
  _ ← assert (negb (empty d)) PopEmpty;
  let d1 := mk (blocks d) (wrap64 (phead d + 1)) (ptail d) in
  if phead d1 =? ptail d1 then reset d1
  else if block_aligned (phead d1) then shrink true d1
  else Ok d1.

Definition pop_back (d : t) : result t :=
  _ ← assert (negb (empty d)) PopEmpty;
  let d1 := mk (blocks d) (phead d) (wrap64 (ptail d - 1)) in
  if phead d1 =? ptail d1 then reset d1
  else if block_aligned (ptail d1) then shrink false d1
  else Ok d1.

Definition dequeue_back (d : t) : result (T * t) :=
  let d1 := mk (blocks d) (phead d) (wrap64 (ptail d - 1)) in
  res ← read_tail (slot (ptail d1)) d1;
  d2 ← (if block_aligned (ptail d1)
        then (if single d1 then reset d1 else shrink false d1)
        else Ok d1);
  Ok (res, d2).

(** [splice_front(blocks)]: the walk [splicePoint = splicePoint->next] is
    taken [n - 1] times (not at all for [n <= 1]), so the chain is cut after
    block number [max n 1]. Walking on from a null pointer is a null
    dereference; the [next] of the last block counts as null. The result
    pairs the spliced instance with what is left of this one. *)
Definition splice_front (n : Z) (d : t) : result (t * t) :=
  _ ← assert (block_aligned (phead d)) SpliceAligned;
  let k := Z.to_nat (Z.max n 1) in
  let len := length (blocks d) in
  if (len <? Nat.pred k)%nat then Abort NullDeref
  else
    _ ← assert (k <? len)%nat SplicePoint;
    Ok (mk (take k (blocks d)) 0 (wrap64 (n * DQBLOCK_SIZE)),
        mk (drop k (blocks d)) (wrap64 (phead d + n * DQBLOCK_SIZE)) (ptail d)).

(** [merge_front(list)]: only this instance changes; [list] keeps its fields. *)
Definition merge_front (list : t) (d : t) : result t :=
  if empty d then Ok list
  else
    _ ← assert (block_aligned (phead d)) MergeSelfAligned;
    _ ← assert (block_aligned (ptail list)) MergeListAligned;
    match blocks list with
    | [] => Abort NullDeref
    | lbs => Ok (mk (lbs ++ blocks d) (wrap64 (phead d - size list)) (ptail d))
    end.

(** [steal_front(dstList)]: returns the new [dstList] and what is left of
    this instance. What [dstList] held before is overwritten. *)
Definition steal_front (d : t) : t * t :=
  (mk (take 1 (blocks d)) 0 DQBLOCK_SIZE,
   if single d then init
   else mk (drop 1 (blocks d)) (wrap64 (phead d + DQBLOCK_SIZE)) (ptail d)).

(** *** The sequence an instance holds *)

Definition head_offset (d : t) : Z := phead d mod DQBLOCK_SIZE.

(** Slots of the chain up to and including the last used one. *)
Definition used_slots (d : t) : Z :=
  match blocks d with
  | [] => 0
  | bs => DQBLOCK_SIZE * (Z.of_nat (length bs) - 1)
          + (ptail d - 1) mod DQBLOCK_SIZE + 1
  end.

(** Number of elements between the two ends of the chain. *)
Definition count (d : t) : Z := used_slots d - head_offset d.

(** The elements from front to back. *)
Definition to_list (d : t) : list T :=
  drop (Z.to_nat (head_offset d)) (take (Z.to_nat (used_slots d)) (concat (blocks d))).

(** Counters consistent with the chain of blocks: every block has 32 slots,
    an empty instance has both counters at 0, and otherwise the chain spans
    exactly the positions from [phead] up to [ptail]. *)
Definition wf (d : t) : Prop :=
  Forall (fun b => length b = Z.to_nat DQBLOCK_SIZE) (blocks d) /\
  0 <= phead d < 2 ^ 64 /\ 0 <= ptail d < 2 ^ 64 /\
  match blocks d with
  | [] => phead d = 0 /\ ptail d = 0
  | _ => 0 < count d /\ wrap64 (phead d + count d) = ptail d
  end.

Definition aligned (d : t) : Prop := phead d mod DQBLOCK_SIZE = 0.

(** Every block of the chain has its 32 slots. *)
Definition full (bs : list DequeBlock) : Prop :=
  Forall (fun b => length b = Z.to_nat DQBLOCK_SIZE) bs.

Definition nblocks (d : t) : Z := Z.of_nat (length (blocks d)).

(** Well formed, with the head on a block boundary: what the allocator
    keeps of every deque it owns. *)
Definition wfa (d : t) : Prop := wf d /\ aligned d.

End Deque.

Arguments t T : clear implicits.
Arguments DequeBlock T : clear implicits.

End BlockedDeque.

Abbreviation Deque := (BlockedDeque.t Z).

(** ** alloc.h: layout, size classes, [sysAlloc] and the sizemap *)

Module Region.

(** plsalloc.cpp *)
Definition PLSALLOC_TRACKED_BASEADDR : Z := 0x0a8000000000.
Definition PLSALLOC_UNTRACKED_BASEADDR : Z := 0x0b8000000000.

Definition trackedBase : Z := PLSALLOC_TRACKED_BASEADDR.
Definition untrackedBase : Z := PLSALLOC_UNTRACKED_BASEADDR.

Definition kPageBits : Z := 15.
Definition kPageSize : Z := Z.shiftl 1 kPageBits.
Definition sizeToPages (sz : Z) : Z := Z.shiftr (wrap64 (sz + kPageSize - 1)) kPageBits.

Definition kMaxClasses : Z := 256.
Definition sizeToClass (sz : Z) : Z := Z.shiftr (wrap64 (sz + 63)) 6.
Definition classToSize (cl : Z) : Z := wrap64 (Z.shiftl cl 6).
Definition isLargeAlloc (sz : Z) : bool := kMaxClasses <=? sizeToClass sz.

Definition kMaxThreads : Z := 2048.
Definition kMaxThreadCacheSize : Z := 4096 * 1024.
Definition kFetchTargetSize : Z := 32 * 1024.

(** The fields of [AllocState] that [sysAlloc] works on, and the bytes of
    the [sizemap] array by index. A byte never written reads 0, as the
    mapping is zero-filled; reads outside the mapping are not modelled (the
    callers are to check [valid_chunk] first). *)
Record t : Type := mk {
  trackedBump : Z;
  trackedEnd : Z;
  sizemapBump : Z;
  sizemapEnd : Z;
  sizemap : gmap Z Z;
}.

(** [mmap] at a fixed address, from the operating system. The model lets it
    succeed as long as the mapping ends inside the 64-bit address space; a
    mapping that fails stops the program at the [assert(mem)] that follows. *)
Definition mmap (addr len : Z) : bool := addr + len <=? 2 ^ 64.

(** The lambda [allocContiguous] of [sysAlloc]: returns [alloc] with the new
    [bump] and [end]. *)
Definition allocContiguous (sz bump end_ : Z) : result (Z * Z * Z) :=
  let alloc := bump in
  let bump := bump + sz in
  if end_ <? bump then
    let mmapSz := wrap64 (Z.shiftl (wrap64 (Z.shiftr (wrap64 (bump - end_)) 21 + 1)) 21) in
    _ ← assert (mmap end_ mmapSz) MmapMem;
    let end_ := end_ + mmapSz in
    _ ← assert (bump <=? end_) MmapEnd;
    Ok (alloc, bump, end_)
  else Ok (alloc, bump, end_).

(** [sizemap[base + page] = cl] for [page] in [0, pages). *)
Definition stamp (base pages cl : Z) (m : gmap Z Z) : gmap Z Z :=
  foldl (fun m page => <[base + page := wrap8 cl]> m) m (seqZ 0 pages).

Definition sysAlloc (chunkSize : Z) (r : t) : result ((Z * Z) * t) :=
  let minPages := sizeToPages chunkSize in
  let pages := Z.max 32 minPages in
  let allocSize := wrap64 (Z.shiftl pages kPageBits) in
  _ ← assert (chunkSize <=? allocSize) SysAllocSize;
  '(alloc, bump, tend) ← allocContiguous allocSize (trackedBump r) (trackedEnd r);
  '(_, sbump, send) ← allocContiguous pages (sizemapBump r) (sizemapEnd r);
  let sm :=
    if negb (isLargeAlloc chunkSize) then
      let cl := sizeToClass chunkSize in
      let base := Z.shiftr (alloc - trackedBase) kPageBits in
      stamp base pages cl (sizemap r)
    else sizemap r in
  Ok ((alloc, alloc + allocSize), mk bump tend sbump send sm).

Definition chunkToClass (p : Z) (r : t) : Z :=
  default 0 (sizemap r !! Z.shiftr (p - trackedBase) kPageBits).

End Region.

(** ** central_free_list.h *)

Module CentralFreeList.
Import BlockedDeque.

Record t : Type := mk {
  chunkSize : Z;       (* uint32_t *)
  elemsPerFetch : Z;   (* uint32_t *)
  freeChunks : Deque;
  bumpStart : Z;
  bumpEnd : Z;
}.

(** [CentralFreeList(_chunkSize, _elemsPerFetch)]. [freeChunks] has no
    initializer: it keeps the zero bytes of the fresh mapping the object is
    constructed in, which is [BlockedDeque.init]. *)
Definition new (_chunkSize _elemsPerFetch : Z) : t :=
  mk (wrap32 _chunkSize) (wrap32 _elemsPerFetch) init 0 0.

Definition alloc (c : t) (r : Region.t) : result (Z * t * Region.t) :=
  if negb (empty (freeChunks c)) then
    '(p, fc) ← dequeue_back (freeChunks c);
    Ok (p, mk (chunkSize c) (elemsPerFetch c) fc (bumpStart c) (bumpEnd c), r)
  else
    '(bs, be, r) ← (if bumpEnd c <? bumpStart c + chunkSize c
                    then '((s, e), r) ← Region.sysAlloc (chunkSize c) r; Ok (s, e, r)
                    else Ok (bumpStart c, bumpEnd c, r));
    let res := bs in
    let bs := bs + chunkSize c in
    _ ← assert (bs <=? be) BumpInWindow;
    Ok (res, mk (chunkSize c) (elemsPerFetch c) (freeChunks c) bs be, r).

Definition dealloc (p : Z) (c : t) : result t :=
  fc ← push_back p (freeChunks c);
  Ok (mk (chunkSize c) (elemsPerFetch c) fc (bumpStart c) (bumpEnd c)).

(** [for (i = 0; i < n; i++) dstList.push_back(freeChunks.dequeue_back())] *)
Fixpoint move_back (n : nat) (src dst : Deque) : result (Deque * Deque) :=
  match n with
  | O => Ok (src, dst)
  | S n =>
      '(p, src) ← dequeue_back src;
      dst ← push_back p dst;
      move_back n src dst
  end.

(** [for (cur = start; cur < end; cur += chunkSize) dstList.push_back(cur)],
    by the number [n] of rounds it takes. *)
Fixpoint fill (n : nat) (cur step : Z) (dst : Deque) : result Deque :=
  match n with
  | O => Ok dst
  | S n => dst ← push_back cur dst; fill n (cur + step) step dst
  end.

(** Rounds of the loop above: the least [n] with [start + n * step >= end]. *)
Definition rounds (start end_ step : Z) : nat :=
  Z.to_nat ((end_ - start + step - 1) / step).

Definition bulkAlloc (dstList : Deque) (c : t) (r : Region.t)
  : result (Deque * t * Region.t) :=
  if elemsPerFetch c <=? size (freeChunks c) then
    if DQBLOCK_SIZE <=? elemsPerFetch c then
      let '(dst, fc) := steal_front (freeChunks c) in
      Ok (dst, mk (chunkSize c) (elemsPerFetch c) fc (bumpStart c) (bumpEnd c), r)
    else
      '(fc, dst) ← move_back (Z.to_nat (elemsPerFetch c)) (freeChunks c) dstList;
      Ok (dst, mk (chunkSize c) (elemsPerFetch c) fc (bumpStart c) (bumpEnd c), r)
  else
    '(bs, be, r) ← (if bumpStart c + chunkSize c <=? bumpEnd c
                    then Ok (bumpStart c, bumpEnd c, r)
                    else '((s, e), r) ← Region.sysAlloc (chunkSize c) r; Ok (s, e, r));
    let start := bs in
    let end_ := be in
    let want := wrap32 (chunkSize c * elemsPerFetch c) in
    let c' := mk (chunkSize c) (elemsPerFetch c) (freeChunks c) (start + want) be in
    end_ ← (if want <? end_ - start then Ok (start + want)
            else if chunkSize c =? 0 then Abort DivByZero
            else
              let availElems := wrap64 ((end_ - start) `quot` chunkSize c) in
              Ok (start + wrap64 (chunkSize c * availElems)));
    dst ← fill (rounds start end_ (chunkSize c)) start (chunkSize c) dstList;
    Ok (dst, c', r).

Definition bulkDealloc (srcList : Deque) (elems : Z) (c : t)
  : result (Deque * t) :=
  if DQBLOCK_SIZE <=? elems then
    let blocks := elems / DQBLOCK_SIZE in
    '(spliced, src) ← splice_front blocks srcList;
    fc ← merge_front spliced (freeChunks c);
    Ok (src, mk (chunkSize c) (elemsPerFetch c) fc (bumpStart c) (bumpEnd c))
  else
    '(src, fc) ← move_back (Z.to_nat elems) srcList (freeChunks c);
    Ok (src, mk (chunkSize c) (elemsPerFetch c) fc (bumpStart c) (bumpEnd c)).

End CentralFreeList.

(** ** large_heap.h *)

Module LargeHeap.

(** Lookups of [std::map] by order of the keys. *)
Section OrderedMap.
Context {V : Type}.

Definition better (lo : bool) (a b : Z) : bool := if lo then a <? b else b <? a.

(** One entry against the best one found so far. *)
Definition extreme_step (lo : bool) (ok : Z -> bool) (kv : Z * V) (acc : option (Z * V))
  : option (Z * V) :=
  if ok kv.1 then
    match acc with
    | Some kv' => if better lo kv.1 kv'.1 then Some kv else acc
    | None => Some kv
    end
  else acc.

(** The entry with the least ([lo = true]) or greatest key among those [ok]. *)
Definition extreme (lo : bool) (ok : Z -> bool) (m : gmap Z V) : option (Z * V) :=
  foldr (extreme_step lo ok) None (map_to_list m).

(** [m.lower_bound(k)]: the first entry whose key is not less than [k]. *)
Definition lower_bound (k : Z) (m : gmap Z V) : option (Z * V) :=
  extreme true (fun a => k <=? a) m.

(** [std::prev(it)] for [it] at key [k], when [it != m.begin()]. *)
Definition prev (k : Z) (m : gmap Z V) : option (Z * V) :=
  extreme false (fun a => a <? k) m.

(** [std::next(it)] for [it] at key [k], when that is not [m.end()]. *)
Definition next (k : Z) (m : gmap Z V) : option (Z * V) :=
  extreme true (fun a => k <? a) m.

End OrderedMap.

Record t : Type := mk {
  freeChunkSets : gmap Z (gset Z);   (* size -> free chunks of that size *)
  chunkSizes : gmap Z Z;             (* chunk start -> size *)
}.

(** [LargeHeap()]: both maps empty. *)
Definition new : t := mk ∅ ∅.

(** [chunkSet.erase(cit); if (chunkSet.empty()) freeChunkSets.erase(fit);]
    for the bucket of size [sz] and its element [c]. *)
Definition erase_free (sz c : Z) (f : gmap Z (gset Z)) : gmap Z (gset Z) :=
  match f !! sz with
  | Some s => let s' := s ∖ {[c]} in
              if decide (s' = ∅) then delete sz f else <[sz := s']> f
  | None => f
  end.

(** [freeChunkSets.find(sz)] finds a bucket and [chunkSet.find(c)] finds
    [c] in it. *)
Definition is_free (sz c : Z) (f : gmap Z (gset Z)) : bool :=
  match f !! sz with
  | Some s => bool_decide (c ∈ s)
  | None => false
  end.

(** The last step of [unlocked_dealloc]: add [c] to the bucket of [sz],
    creating the bucket when there is none. *)
Definition insert_free (sz c : Z) (f : gmap Z (gset Z)) : gmap Z (gset Z) :=
  match f !! sz with
  | Some s => <[sz := s ∪ {[c]}]> f
  | None => <[sz := {[c]}]> f
  end.

(** The block "Try to merge with previous" of [unlocked_dealloc], on the
    chunk [p] of size [chunkSize]: returns [chunk], [chunkSize] and the two
    maps as the block leaves them. *)
Definition merge_prev (p chunkSize : Z) (f : gmap Z (gset Z)) (cs : gmap Z Z)
  : Z * Z * gmap Z (gset Z) * gmap Z Z :=
  match prev p cs with
  | Some (prevChunk, prevChunkSize) =>
      if (prevChunk + prevChunkSize =? p) && is_free prevChunkSize prevChunk f
      then
        let sz := wrap64 (chunkSize + prevChunkSize) in
        (prevChunk, sz, erase_free prevChunkSize prevChunk f,
         <[prevChunk := sz]> (delete p cs))
      else (p, chunkSize, f, cs)
  | None => (p, chunkSize, f, cs)
  end.

(** The block "Try to merge with next", on the chunk [chunk] the iterator
    [it] is at after the first block. *)
Definition merge_next (chunk chunkSize : Z) (f : gmap Z (gset Z)) (cs : gmap Z Z)
  : Z * gmap Z (gset Z) * gmap Z Z :=
  match next chunk cs with
  | Some (nextChunk, nextChunkSize) =>
      if (chunk + chunkSize =? nextChunk) && is_free nextChunkSize nextChunk f
      then
        let sz := wrap64 (chunkSize + nextChunkSize) in
        (sz, erase_free nextChunkSize nextChunk f,
         <[chunk := sz]> (delete nextChunk cs))
      else (chunkSize, f, cs)
  | None => (chunkSize, f, cs)
  end.

Definition unlocked_dealloc (p : Z) (h : t) : result t :=
  match chunkSizes h !! p with
  | None => Abort InvalidFree
  | Some chunkSize =>
      let '(chunk, chunkSize, f, cs) :=
        merge_prev p chunkSize (freeChunkSets h) (chunkSizes h) in
      let '(chunkSize, f, cs) := merge_next chunk chunkSize f cs in
      Ok (mk (insert_free chunkSize chunk f) cs)
  end.

(** [alloc(chunkSize)]. [pick] stands for [chunkSet.begin()], the element
    the hash set happens to list first; an answer outside the set is the
    dereference of [end()] of an empty set. *)
Definition alloc (pick : gset Z -> Z) (chunkSize : Z) (h : t) (r : Region.t)
  : result (Z * t * Region.t) :=
  '(start, end_, f, r) ←
    match lower_bound chunkSize (freeChunkSets h) with
    | None =>
        '((s, e), r) ← Region.sysAlloc chunkSize r;
        Ok (s, e, freeChunkSets h, r)
    | Some (sz, chunkSet) =>
        let start := pick chunkSet in
        if decide (start ∈ chunkSet)
        then Ok (start, start + sz, erase_free sz start (freeChunkSets h), r)
        else Abort NullDeref
    end;
  let cs := <[start := chunkSize]> (chunkSizes h) in
  let left := start + chunkSize in
  let remaining := wrap64 (end_ - left) in
  if remaining =? 0 then Ok (start, mk f cs, r)
  else
    h ← unlocked_dealloc left (mk f (<[left := remaining]> cs));
    Ok (start, h, r).

Definition dealloc (p : Z) (h : t) : result t := unlocked_dealloc p h.


End LargeHeap.

(** ** Arrays *)

(** [a[i]] and [a[i] = x] on a C array held as a list: an index outside
    the array stops the program. *)
Definition get {A} (a : list A) (i : Z) : result A :=
  if i <? 0 then Abort OutOfBounds
  else match a !! Z.to_nat i with
       | Some x => Ok x
       | None => Abort OutOfBounds
       end.

Definition set {A} (a : list A) (i : Z) (x : A) : list A := <[Z.to_nat i := x]> a.

(** ** central_free_list.h: the banked wrapper *)

Module BankedCentralFreeList.

Section Banks.
Variable NB : Z.

Record t : Type := mk { banks : list CentralFreeList.t }.

Definition new (_chunkSize _elemsPerFetch : Z) : t :=
  mk (replicate (Z.to_nat NB) (CentralFreeList.new _chunkSize _elemsPerFetch)).

(** [rb()]: [randVal] is what [sim_rdrand] stores. *)
Definition rb (randVal : Z) : Z := wrap64 randVal mod NB.

Definition alloc (randVal : Z) (b : t) (r : Region.t) : result (Z * t * Region.t) :=
  c ← get (banks b) (rb randVal);
  '(p, c, r) ← CentralFreeList.alloc c r;
  Ok (p, mk (set (banks b) (rb randVal) c), r).

(** A call [c.dealloc(args)]: [CentralFreeList] has the one member
    [dealloc(void* p)], so only a single argument is accepted. *)
Definition call_dealloc (args : list Z) (c : CentralFreeList.t) : result CentralFreeList.t :=
  match args with
  | [p] => CentralFreeList.dealloc p c
  | _ => Abort IllFormedCall
  end.

(** [dealloc(void* p) { banks[rb()].dealloc(); }] *)
Definition dealloc (randVal : Z) (p : Z) (b : t) : result t :=
  c ← get (banks b) (rb randVal);
  c ← call_dealloc [] c;
  Ok (mk (set (banks b) (rb randVal) c)).

Definition bulkAlloc (randVal : Z) (dstList : Deque) (b : t) (r : Region.t)
  : result (Deque * t * Region.t) :=
  c ← get (banks b) (rb randVal);
  '(dst, c, r) ← CentralFreeList.bulkAlloc dstList c r;
  Ok (dst, mk (set (banks b) (rb randVal) c), r).

Definition bulkDealloc (randVal : Z) (srcList : Deque) (elems : Z) (b : t)
  : result (Deque * t) :=
  c ← get (banks b) (rb randVal);
  '(src, c) ← CentralFreeList.bulkDealloc srcList elems c;
  Ok (src, mk (set (banks b) (rb randVal) c)).

End Banks.

End BankedCentralFreeList.

(** ** alloc.h: the thread cache *)

Module ThreadCache.
Import BlockedDeque Region.

Record t : Type := mk {
  cacheSize : Z;              (* size_t *)
  classLists : list Deque;    (* BlockedDeque<void*> classLists[kMaxClasses] *)
}.

(** [ThreadCache() : cacheSize(0) {}]; the deques keep the zero bytes of
    the fresh mapping. *)
Definition new : t := mk 0 (replicate (Z.to_nat kMaxClasses) init).

(** The methods work on [this] and on [gs.classLists], the central lists
    ([CENTRAL_FREE_LIST_BANKS] is 1), which reach the region through
    [sysAlloc]. *)
Definition alloc (cl : Z) (tc : t) (central : list CentralFreeList.t) (r : Region.t)
  : result (Z * t * list CentralFreeList.t * Region.t) :=
  d ← get (classLists tc) cl;
  '(d, csz, central, r) ←
    (if empty d then
       c ← get central cl;
       '(d, c, r) ← CentralFreeList.bulkAlloc d c r;
       Ok (d, wrap64 (cacheSize tc + wrap64 (classToSize cl * size d)),
           set central cl c, r)
     else Ok (d, cacheSize tc, central, r));
  '(res, d) ← dequeue_back d;
  Ok (res, mk (wrap64 (csz - classToSize cl)) (set (classLists tc) cl d), central, r).

(** One round of the donation loop of [dealloc]. *)
Definition donate_class (cl : Z) (tc : t) (central : list CentralFreeList.t)
  : result (t * list CentralFreeList.t) :=
  d ← get (classLists tc) cl;
  let elems := size d in
  if elems =? 0 then Ok (tc, central)
  else
    let elemsToDonate := wrap64 (elems + 1) / 2 in
    c ← get central cl;
    '(d', c) ← CentralFreeList.bulkDealloc d elemsToDonate c;
    Ok (mk (wrap64 (cacheSize tc - wrap64 (wrap64 (elems - size d') * classToSize cl)))
           (set (classLists tc) cl d'),
        set central cl c).

(** [for (size_t cl = 1; cl < kMaxClasses; cl++)], over the classes left. *)
Fixpoint donate (cls : list Z) (tc : t) (central : list CentralFreeList.t)
  : result (t * list CentralFreeList.t) :=
  match cls with
  | [] => Ok (tc, central)
  | cl :: cls => '(tc, central) ← donate_class cl tc central; donate cls tc central
  end.

Definition dealloc (p : Z) (cl : Z) (tc : t) (central : list CentralFreeList.t)
  : result (t * list CentralFreeList.t) :=
  d ← get (classLists tc) cl;
  d ← push_back p d;
  let tc := mk (wrap64 (cacheSize tc + classToSize cl)) (set (classLists tc) cl d) in
  if kMaxThreadCacheSize <? cacheSize tc
  then donate (seqZ 1 (kMaxClasses - 1)) tc central
  else Ok (tc, central).

Definition size (cl : Z) (tc : t) : result Z :=
  d ← get (classLists tc) cl; Ok (BlockedDeque.size d).

End ThreadCache.

(** ** alloc.h: global state, initialization and the entry points *)

Module Alloc.
Import BlockedDeque Region.

Record AllocState : Type := mkAllocState {
  classLists : list CentralFreeList.t;   (* CentralFreeListType classLists[kMaxClasses] *)
  largeHeap : LargeHeap.t;
  threadCaches : list ThreadCache.t;     (* ThreadCache threadCaches[kMaxThreads] *)
  region : Region.t;                     (* trackedBump .. sizemapEnd, and the sizemap *)
}.

(** The per-class fetch size computed by the loop of [__plsalloc_init]. *)
Definition initElemsPerFetch (cl : Z) : Z :=
  let elemsPerFetch := wrap32 (kFetchTargetSize / classToSize cl) in
  Z.min (wrap32 DQBLOCK_SIZE) (Z.max elemsPerFetch 2).

(** [classLists[0]] is never constructed: it keeps the zero bytes of the
    mapping. *)
Definition zeroCentralFreeList : CentralFreeList.t :=
  CentralFreeList.mk 0 0 init 0 0.

(** The loop [for (size_t cl = 1; cl < kMaxClasses; cl++)] of
    [__plsalloc_init] over the array [classLists]. *)
Definition initClassLists : list CentralFreeList.t :=
  zeroCentralFreeList ::
  ((fun cl => CentralFreeList.new (classToSize cl) (initElemsPerFetch cl))
     <$> seqZ 1 (kMaxClasses - 1)).

(** The loop [for (uint32_t tid = 0; tid < kMaxThreads; tid++)]. *)
Definition initThreadCaches : list ThreadCache.t :=
  replicate (Z.to_nat kMaxThreads) ThreadCache.new.

Section Init.
(** [sizeof(AllocState)], which the compiler fixes. *)
Variable sizeofAllocState : Z.

(** [__plsalloc_init()]. The program state is [None] until it has run:
    [__initialized] is false and [gs] is not mapped. *)
Definition __plsalloc_init (g : option AllocState) : result AllocState :=
  match g with
  | Some gs => Ok gs
  | None =>
      let sz := wrap64 (Z.shiftl (Z.shiftr (wrap64 (sizeofAllocState + 2 * 1024 * 1024)) 21) 21) in
      if negb (mmap untrackedBase sz) then Abort InitExit
      else
        let sizemap_ := untrackedBase + sizeofAllocState in
        Ok (mkAllocState initClassLists LargeHeap.new initThreadCaches
              (Region.mk trackedBase trackedBase sizemap_ (untrackedBase + sz) ∅))
  end.

(** [do_alloc(chunkSize)]; [tid] is what [sim_get_tid()] returns and [pick]
    the listing order of the hash sets of the large heap. *)
Definition do_alloc (tid : Z) (pick : gset Z -> Z) (chunkSize : Z) (g : option AllocState)
  : result (Z * AllocState) :=
  gs ← __plsalloc_init g;
  if negb (isLargeAlloc chunkSize) then
    let cl := sizeToClass chunkSize in
    tc ← get (threadCaches gs) tid;
    '(res, tc, central, r) ← ThreadCache.alloc cl tc (classLists gs) (region gs);
    Ok (res, mkAllocState central (largeHeap gs) (set (threadCaches gs) tid tc) r)
  else
    let sz := Z.land (wrap64 (chunkSize + 63)) (wrap64 (Z.lnot 63)) in
    '(res, h, r) ← LargeHeap.alloc pick sz (largeHeap gs) (region gs);
    Ok (res, mkAllocState (classLists gs) h (threadCaches gs) r).

End Init.

(** [do_dealloc(p)], [chunk_size(p)] and [valid_chunk(p)] on a state that has
    been initialized. *)
Definition do_dealloc (tid : Z) (p : Z) (gs : AllocState) : result AllocState :=
  if p =? 0 then Ok gs
  else
    let cl := chunkToClass p (region gs) in
    if negb (cl =? 0) then
      tc ← get (threadCaches gs) tid;
      '(tc, central) ← ThreadCache.dealloc p cl tc (classLists gs);
      Ok (mkAllocState central (largeHeap gs) (set (threadCaches gs) tid tc) (region gs))
    else
      h ← LargeHeap.dealloc p (largeHeap gs);
      Ok (mkAllocState (classLists gs) h (threadCaches gs) (region gs)).


Definition valid_chunk (p : Z) (gs : AllocState) : bool :=
  (trackedBase <=? p) && (p <=? trackedBump (region gs)).

End Alloc.

(** * Specification *)

Definition deque_site (s : assert_site) : bool :=
  match s with
  | ShrinkBlock | ResetCounters | ResetBlocks | PopEmpty
  | SpliceAligned | SplicePoint | MergeSelfAligned | MergeListAligned => true
  | _ => false
  end.

Definition deque_failure (f : failure) : Prop :=
  match f with
  | AssertFailed s => deque_site s = true
  | DanglingBlock => True
  | _ => False
  end.

Definition no_deque_failure {A} (r : result A) : Prop :=
  match r with
  | Ok _ => True
  | Abort f => ~ deque_failure f
  end.

(** Elements [bulkDealloc(src, elems)] takes out of [src]. *)
Definition moved (elems : Z) : Z :=
  if elems <? 32 then elems else 32 * (elems / 32).

Definition central_ok (c : CentralFreeList.t) : Prop :=
  BlockedDeque.wfa (CentralFreeList.freeChunks c) /\
  0 <= CentralFreeList.chunkSize c < 2 ^ 32 /\
  0 <= CentralFreeList.elemsPerFetch c <= 32.

Definition region_ok (r : Region.t) : Prop :=
  Region.trackedBase <= Region.trackedBump r /\
  Region.trackedBump r <= Region.trackedEnd r /\
  Region.trackedEnd r <= 2 ^ 64.

(** The chunk at [a] of size [s] is in the free index. *)
Definition free_at (f : gmap Z (gset Z)) (a s : Z) : Prop :=
  exists S, f !! s = Some S /\ a ∈ S.

Record lh_inv (h : LargeHeap.t) (r : Region.t) : Prop := {
  inv_free_sized : forall a s,
    free_at (LargeHeap.freeChunkSets h) a s -> LargeHeap.chunkSizes h !! a = Some s;
  inv_disjoint : forall a sa b sb,
    LargeHeap.chunkSizes h !! a = Some sa -> LargeHeap.chunkSizes h !! b = Some sb ->
    a < b -> a + sa <= b;
  inv_no_adjacent : forall a sa b sb,
    free_at (LargeHeap.freeChunkSets h) a sa ->
    free_at (LargeHeap.freeChunkSets h) b sb -> a + sa <> b;
  inv_buckets : forall s S, LargeHeap.freeChunkSets h !! s = Some S -> S <> ∅;
  inv_pos : forall a s, LargeHeap.chunkSizes h !! a = Some s -> 0 < s;
  inv_bound : forall a s, LargeHeap.chunkSizes h !! a = Some s ->
    Region.trackedBase <= a /\ a + s <= Region.trackedBump r;
  inv_space : Region.trackedBump r <= 2 ^ 64;
}.

(** The chunk [p] is not in the free index. *)
Definition used (f : gmap Z (gset Z)) (p : Z) : Prop := forall s, ~ free_at f p s.

(** No free chunk ends where [p] starts. *)
Definition closed_left (f : gmap Z (gset Z)) (p : Z) : Prop :=
  forall b sb, free_at f b sb -> b + sb <> p.


(** Sum over the class array of a per-class quantity, the first list being
    that of class [k]. *)
Fixpoint wsum (g : Z -> Deque -> Z) (k : Z) (ds : list Deque) : Z :=
  match ds with
  | [] => 0
  | d :: ds => g k d + wsum g (k + 1) ds
  end.

(** [size(classLists[c]) * classToSize(c)] *)
Definition bytes_of (cl : Z) (d : Deque) : Z :=
  BlockedDeque.size d * Region.classToSize cl.

(** The same with the number of elements the chain of blocks holds. *)
Definition held (cl : Z) (d : Deque) : Z :=
  BlockedDeque.count d * Region.classToSize cl.

(** Bytes of class [cl] beyond its first [lim] elements. *)
Definition excess (lim : Z) (cl : Z) (d : Deque) : Z :=
  Z.max 0 (BlockedDeque.count d - lim) * Region.classToSize cl.

Definition tc_ok (tc : ThreadCache.t) : Prop :=
  length (ThreadCache.classLists tc) = Z.to_nat Region.kMaxClasses /\
  Forall BlockedDeque.wfa (ThreadCache.classLists tc) /\
  ThreadCache.cacheSize tc = wsum held 0 (ThreadCache.classLists tc) /\
  wsum (excess 32) 0 (ThreadCache.classLists tc) <= Region.kMaxThreadCacheSize.

Definition central_all_ok (central : list CentralFreeList.t) : Prop :=
  length central = Z.to_nat Region.kMaxClasses /\ Forall central_ok central.

(** What holds of a thread cache between the rounds of the donation loop. *)
Definition tc_loop (tc : ThreadCache.t) : Prop :=
  length (ThreadCache.classLists tc) = Z.to_nat Region.kMaxClasses /\
  Forall BlockedDeque.wfa (ThreadCache.classLists tc) /\
  ThreadCache.cacheSize tc = wsum held 0 (ThreadCache.classLists tc) /\
  ThreadCache.cacheSize tc < 2 ^ 32.

(** Classes below [i] have been through the donation loop. *)
Definition mix (i : Z) (cl : Z) (d : Deque) : Z :=
  if cl <? i then excess 32 cl d else excess 33 cl d.

Module System.
Import Alloc.

(** One call into a component of the allocator that returns. *)
Inductive step : AllocState -> AllocState -> Prop :=
| step_tc_alloc gs tid cl tc p tc' central' r' :
    get (threadCaches gs) tid = Ok tc ->
    ThreadCache.alloc cl tc (classLists gs) (region gs) = Ok (p, tc', central', r') ->
    step gs (mkAllocState central' (largeHeap gs) (set (threadCaches gs) tid tc') r')
| step_tc_dealloc gs tid p cl tc tc' central' :
    get (threadCaches gs) tid = Ok tc ->
    ThreadCache.dealloc p cl tc (classLists gs) = Ok (tc', central') ->
    step gs (mkAllocState central' (largeHeap gs) (set (threadCaches gs) tid tc') (region gs))
| step_lh_alloc gs pick sz p h' r' :
    0 <= sz < 2 ^ 64 ->
    LargeHeap.alloc pick sz (largeHeap gs) (region gs) = Ok (p, h', r') ->
    step gs (mkAllocState (classLists gs) h' (threadCaches gs) r')
| step_lh_dealloc gs p h' :
    LargeHeap.dealloc p (largeHeap gs) = Ok h' ->
    step gs (mkAllocState (classLists gs) h' (threadCaches gs) (region gs)).

(** States the allocator gets to from its initialization. *)
Inductive reachable (sizeofAllocState : Z) : AllocState -> Prop :=
| reach_init gs :
    __plsalloc_init sizeofAllocState None = Ok gs -> reachable sizeofAllocState gs
| reach_step gs gs' :
    reachable sizeofAllocState gs -> step gs gs' -> reachable sizeofAllocState gs'.

Definition gs_ok (gs : AllocState) : Prop :=
  central_all_ok (classLists gs) /\
  length (threadCaches gs) = Z.to_nat Region.kMaxThreads /\
  Forall tc_ok (threadCaches gs) /\
  lh_inv (largeHeap gs) (region gs) /\
  region_ok (region gs).

End System.

Module Examples.
Import Alloc Region.

(** A value for [sizeof(AllocState)]. *)
Definition sizeofAllocState0 : Z := 16924928.

(** A listing order for the hash sets: the least address first. *)
Definition pick_first (S : gset Z) : Z := default 0 (head (elements S)).

Definition noState : AllocState :=
  mkAllocState [] LargeHeap.new [] (Region.mk 0 0 0 0 ∅).

(** The state [__plsalloc_init] leaves. *)
Definition state0 : AllocState :=
  match __plsalloc_init sizeofAllocState0 None with
  | Ok gs => gs
  | Abort _ => noState
  end.

(** Two deques of 64 and of 2 elements. *)
Definition src64 : Deque := BlockedDeque.mk [seqZ 0 32; seqZ 32 32] 0 64.

(** The deque left by [push_back(1); push_back(2); pop_front()]. *)
Definition d12 : Deque := BlockedDeque.mk [1 :: 2 :: replicate 30 inhabitant] 1 2.


(** Thread 0 after [alloc(2)] on the state [state0]. *)
Definition small1 : Z * ThreadCache.t * list CentralFreeList.t * Region.t :=
  match ThreadCache.alloc 2 ThreadCache.new (classLists state0) (region state0) with
  | Ok x => x
  | Abort _ => (0, ThreadCache.new, [], region state0)
  end.
Definition stateT1 : AllocState :=
  mkAllocState small1.1.2 (largeHeap state0) (set (threadCaches state0) 0 small1.1.1.2) small1.2.

(** The clamp and the rounded-up quotient of the specification. *)
Definition clamp (x lo hi : Z) : Z := Z.max lo (Z.min x hi).
Definition ceil_div (a b : Z) : Z := (a + b - 1) / b.

End Examples.

(** * Proofs *)

Lemma bind_ok {A B} (r : result A) (k : A -> result B) b :
  r ≫= k = Ok b <-> exists a, r = Ok a /\ k a = Ok b.
Proof.
  destruct r; simpl; split.
  - intros. eauto.
  - intros (? & [= <-] & ?). done.
  - done.
  - intros (? & ? & ?). done.
Qed.

Lemma bind_Ok {A B} (a : A) (k : A -> result B) : Ok a ≫= k = k a.
Proof. reflexivity. Qed.

Lemma wrap64_small x : 0 <= x < 2 ^ 64 -> wrap64 x = x.
Proof. apply Z.mod_small. Qed.

Module DequeFacts.
Import BlockedDeque.

Section Facts.
Context {T : Type} `{Inhabited T}.
Implicit Types d : BlockedDeque.t T.

Lemma land_mask p : Z.land p DQBLOCK_MASK = p mod 32.
Proof. change DQBLOCK_MASK with (Z.ones 5). by rewrite Z.land_ones. Qed.

Lemma block_aligned_spec p : block_aligned p = true <-> p mod 32 = 0.
Proof. unfold block_aligned. rewrite land_mask. apply Z.eqb_eq. Qed.

Lemma block_aligned_false p : block_aligned p = false <-> p mod 32 <> 0.
Proof. unfold block_aligned. rewrite land_mask. apply Z.eqb_neq. Qed.

Ltac arith :=
  unfold wrap64, DQBLOCK_SIZE in *; Z.div_mod_to_equations; lia.

Lemma wfa_char d :
  wfa d <->
  full (blocks d) /\ 0 <= phead d < 2 ^ 64 /\ 0 <= ptail d < 2 ^ 64 /\
  phead d mod 32 = 0 /\
  (nblocks d = 0 -> phead d = 0 /\ ptail d = 0) /\
  (0 < nblocks d -> wrap64 (phead d + (32 * (nblocks d - 1) + (ptail d - 1) mod 32 + 1)) = ptail d).
Proof.
  unfold wfa, wf, aligned, count, used_slots, head_offset, nblocks, full.
  destruct d as [[|b bs] ph pt]; simpl.
  - split.
    + intros [(? & ? & ? & ? & ?) ?]. repeat split; auto; lia.
    + intros (? & ? & ? & ? & H1 & _). destruct H1; [lia|]. repeat split; auto; lia.
  - split.
    + intros [(? & ? & ? & ? & ?) Ha]. unfold DQBLOCK_SIZE in *. rewrite Ha in *.
      repeat split; auto; try lia. intros _. rewrite <- H4 at 2. f_equal. lia.
    + intros (? & ? & ? & Ha & _ & H1). unfold DQBLOCK_SIZE in *. rewrite Ha.
      repeat split; auto; try lia.
      * Z.div_mod_to_equations. lia.
      * rewrite <- H1 at 2; [f_equal;lia|lia].
Qed.

Lemma count_char d :
  wfa d -> count d = 32 * (nblocks d - 1) + (ptail d - 1) mod 32 + 1.
Proof.
  intros Hw. pose proof Hw as Hw'. apply wfa_char in Hw' as (? & ? & ? & Ha & H0 & ?).
  destruct Hw as [_ Hal].
  unfold count, used_slots, head_offset, nblocks in *. unfold aligned in Hal.
  destruct (blocks d); simpl in *.
  - destruct H0 as [_ ->]; [done|]. rewrite Hal. done.
  - unfold DQBLOCK_SIZE. rewrite Ha. lia.
Qed.

Lemma nblocks_0 d : nblocks d = 0 <-> blocks d = [].
Proof. unfold nblocks. destruct (blocks d); simpl; split; intros; try done; lia. Qed.

Lemma size_count d : wfa d -> size d = wrap64 (count d).
Proof.
  intros Hw. rewrite (count_char _ Hw). apply wfa_char in Hw as (? & ? & ? & Ha & H0 & H1).
  unfold size. destruct (decide (nblocks d = 0)) as [E|E].
  - destruct (H0 E) as [-> ->]. rewrite E. done.
  - assert (0 < nblocks d) as Hp by (unfold nblocks in *; lia).
    specialize (H1 Hp). revert H1. generalize (32 * (nblocks d - 1) + (ptail d - 1) mod 32 + 1).
    intros c Hc. arith.
Qed.

Lemma wfa_init : wfa (init (T:=T)).
Proof. repeat split; simpl; try lia. constructor. Qed.

Lemma length_newBlock : length (newBlock (T:=T)) = Z.to_nat DQBLOCK_SIZE.
Proof. apply length_replicate. Qed.

Lemma full_write_last i v n (bs : list (DequeBlock T)) :
  full bs -> full (alter (fun b => <[i := v]> b) n bs).
Proof. intros. apply Forall_alter; [done|]. intros ?. by rewrite length_insert. Qed.

Lemma push_back_ok v d :
  wfa d ->
  exists d', push_back v d = Ok d' /\ wfa d' /\ count d' = count d + 1 /\
             phead d' = phead d /\ blocks d' <> [].
Proof.
  intros Hw. pose proof (count_char _ Hw) as Hc.
  pose proof Hw as (Hf & Hph & Hpt & Ha & H0 & H1)%wfa_char.
  assert (exists d', push_back v d = Ok d' /\ phead d' = phead d /\
            ptail d' = wrap64 (ptail d + 1) /\ full (blocks d') /\
            nblocks d' = nblocks d + (if decide (ptail d mod 32 = 0) then 1 else 0))
    as (d' & -> & Hph' & Hpt' & Hf' & Hn').
  { destruct d as [bs ph pt]. unfold push_back, nblocks in *. simpl in *.
    destruct (block_aligned pt) eqn:Ept.
    - apply block_aligned_spec in Ept. rewrite decide_True by done.
      unfold expand, write_tail; simpl.
      destruct bs as [|b bs]; simpl.
      + eexists; split; [reflexivity|]. simpl. repeat split; auto.
        constructor; [|constructor]. rewrite length_insert. apply length_newBlock.
      + eexists; split; [reflexivity|]. simpl. repeat split; auto.
        * rewrite app_comm_cons. apply full_write_last. apply Forall_app. split; [done|].
          constructor; [apply length_newBlock|constructor].
        * rewrite length_alter. simpl. rewrite length_app. simpl. lia.
    - apply block_aligned_false in Ept. rewrite decide_False by done.
      unfold write_tail; simpl.
      destruct bs as [|b bs]; simpl.
      + destruct H0 as [_ ->]; done.
      + eexists; split; [reflexivity|]. simpl. repeat split; auto.
        * by apply full_write_last.
        * rewrite length_alter. simpl. lia.  }
  assert (0 <= nblocks d) by (unfold nblocks; lia).
  assert (wfa d') as Hw'.
  { apply wfa_char. rewrite Hph', Hpt', Hn'. repeat split; auto; try (by arith).
    - case_decide; intros; [lia|]. destruct H0 as [? ?]; [lia|]. arith.
    - case_decide; intros; [lia|]. destruct H0 as [? ?]; [lia|]. arith.
    - intros Hp. case_decide.
      + destruct (decide (nblocks d = 0)) as [E|E].
        * destruct (H0 E) as [E1 E2]. rewrite E, E1, E2. done.
        * assert (0 < nblocks d) as Hp' by lia. specialize (H1 Hp'). clear H0 Hc Hw. arith.
      + assert (0 < nblocks d) as Hp' by lia. specialize (H1 Hp'). clear H0 Hc Hw. arith. }
  eexists; split; [reflexivity|]. split; [done|].
  rewrite (count_char _ Hw'), Hc, Hpt', Hn'. repeat split; auto.
  - case_decide.
    + destruct (decide (nblocks d = 0)) as [E|E].
      * destruct (H0 E) as [E1 E2]. rewrite E, E2. done.
      * clear H0 Hc Hw H1. arith.
    + clear H0 Hc Hw H1. arith.
  - apply wfa_char in Hw' as (_&_&_&_&H0'&_). intros E%nblocks_0.
    rewrite Hn' in E. case_decide; [lia|]. destruct H0 as [_ E2]; [lia|]. rewrite E2 in *. done.
Qed.

Lemma dequeue_back_ok d :
  wfa d -> blocks d <> [] ->
  exists r d', dequeue_back d = Ok (r, d') /\ wfa d' /\ count d' = count d - 1 /\
               phead d' mod 32 = 0.
Proof.
  intros Hw Hne. pose proof (count_char _ Hw) as Hc.
  pose proof Hw as (Hf & Hph & Hpt & Ha & H0 & H1)%wfa_char.
  assert (0 < nblocks d) as Hp.
  { unfold nblocks. destruct (blocks d); [done|simpl; lia]. }
  specialize (H1 Hp). clear H0.
  assert (exists r d', dequeue_back d = Ok (r, d') /\ full (blocks d') /\
            ((ptail d - 1) mod 32 <> 0 /\ nblocks d' = nblocks d /\
               phead d' = phead d /\ ptail d' = wrap64 (ptail d - 1) \/
             (ptail d - 1) mod 32 = 0 /\ 1 < nblocks d /\ nblocks d' = nblocks d - 1 /\
               phead d' = phead d /\ ptail d' = wrap64 (ptail d - 1) \/
             (ptail d - 1) mod 32 = 0 /\ nblocks d = 1 /\ d' = init))
    as (r & d' & -> & Hf' & Hcases).
  { destruct d as [bs ph pt]. unfold dequeue_back, read_tail, nblocks in *. simpl in *.
    destruct (last bs) as [b|] eqn:El; [|by apply last_None in El]. simpl.
    destruct (block_aligned (wrap64 (pt - 1))) eqn:Ept.
    - apply block_aligned_spec in Ept.
      assert ((pt - 1) mod 32 = 0) as Ept' by (clear H1 Hc Hw; arith).
      destruct bs as [|b1 [|b2 bs]]; [done| |].
      + unfold single, reset; simpl.
        assert ((ph =? wrap64 (pt - 1)) = true) as ->.
        { apply Z.eqb_eq. simpl in *. clear Hc Hw. arith. }
        simpl. do 2 eexists; split; [reflexivity|]. split; [constructor|].
        right; right. simpl. done.
      + unfold single, shrink. cbn [blocks].
        do 2 eexists; split; [reflexivity|]. cbn [blocks phead ptail].
        rewrite removelast_firstn_len. split; [by apply Forall_take|].
        right; left. rewrite length_take. simpl. repeat split; auto; lia.
    - apply block_aligned_false in Ept.
      do 2 eexists; split; [reflexivity|]. simpl. split; [done|].
      left. repeat split; auto. clear H1 Hc Hw; arith. }
  exists r, d'. split; [done|].
  destruct Hcases as [(E & Hn' & Hph' & Hpt')|[(E & Hn & Hn' & Hph' & Hpt')|(E & Hn & ->)]].
  - assert (wfa d') as Hw'.
    { apply wfa_char. rewrite Hph', Hpt', Hn'. clear Hc Hw.
      repeat split; auto; intros; arith. }
    split; [done|]. rewrite (count_char _ Hw'), Hc, Hpt', Hn', Hph'. split; [|done].
    clear Hc Hw H1. arith.
  - assert (wfa d') as Hw'.
    { apply wfa_char. rewrite Hph', Hpt', Hn'. clear Hc Hw.
      repeat split; auto; intros; arith. }
    split; [done|]. rewrite (count_char _ Hw'), Hc, Hpt', Hn', Hph'. split; [|done].
    clear Hc Hw H1. arith.
  - split; [apply wfa_init|]. rewrite Hc, Hn, E. done.
Qed.

Lemma wfa_empty_count d : wfa d -> blocks d = [] -> count d = 0.
Proof.
  intros Hw E. rewrite (count_char _ Hw).
  apply wfa_char in Hw as (_ & _ & _ & _ & H0 & _).
  apply nblocks_0 in E. destruct (H0 E) as [_ ->]. rewrite E. done.
Qed.

Lemma wfa_count_pos d : wfa d -> blocks d <> [] -> 0 < count d.
Proof.
  intros Hw E. rewrite (count_char _ Hw).
  assert (0 < nblocks d). { unfold nblocks. destruct (blocks d); [done|simpl; lia]. }
  arith.
Qed.

Lemma wfa_count_nonneg d : wfa d -> 0 <= count d.
Proof.
  intros Hw. destruct (decide (blocks d = [])) as [E|E].
  - by rewrite wfa_empty_count.
  - pose proof (wfa_count_pos _ Hw E). lia.
Qed.

Lemma count_bounds d :
  wfa d -> 32 * (nblocks d - 1) < count d <= 32 * nblocks d \/ (nblocks d = 0 /\ count d = 0).
Proof.
  intros Hw. destruct (decide (blocks d = [])) as [E|E].
  - right. split; [by apply nblocks_0|by apply wfa_empty_count].
  - left. rewrite (count_char _ Hw). arith.
Qed.

Lemma steal_front_ok d dst d' :
  wfa d -> 32 <= count d -> steal_front d = (dst, d') ->
  wfa dst /\ count dst = 32 /\ wfa d' /\ count d' = count d - 32.
Proof.
  intros Hw Hge. pose proof (count_char _ Hw) as Hc.
  pose proof Hw as (Hf & Hph & Hpt & Ha & H0 & H1)%wfa_char.
  assert (0 < nblocks d) as Hp.
  { destruct (count_bounds _ Hw); lia. }
  specialize (H1 Hp). clear H0.
  unfold steal_front. intros [= <- <-].
  destruct d as [bs ph pt]. unfold single, nblocks in *. simpl in *.
  destruct bs as [|b1 bs]; [simpl in *; lia|].
  assert (wfa (mk [b1] 0 DQBLOCK_SIZE)) as Hw1.
  { apply wfa_char. unfold nblocks. simpl.
    repeat split; auto; try done. constructor; [by inversion Hf|constructor]. }
  split; [done|]. split; [by vm_compute|].
  destruct bs as [|b2 bs]; simpl in *.
  - split; [apply wfa_init|]. rewrite Hc in *. change (count init) with 0. clear Hw Hw1 Hc. arith.
  - assert (wfa (mk (b2 :: bs) (wrap64 (ph + DQBLOCK_SIZE)) pt)) as Hw2.
    { apply wfa_char. unfold nblocks. simpl. clear Hw Hw1 Hc.
      repeat split; auto; intros; try arith. by inversion Hf. }
    split; [done|]. rewrite (count_char _ Hw2), Hc. unfold nblocks. simpl. lia.
Qed.

Lemma splice_front_ok k d :
  wfa d -> 1 <= k < nblocks d ->
  exists res d', splice_front k d = Ok (res, d') /\
    wfa res /\ count res = 32 * k /\ ptail res mod 32 = 0 /\ blocks res <> [] /\
    wfa d' /\ count d' = count d - 32 * k /\ blocks d' <> [].
Proof.
  intros Hw Hk. pose proof (count_char _ Hw) as Hc.
  pose proof Hw as (Hf & Hph & Hpt & Ha & H0 & H1)%wfa_char.
  assert (0 < nblocks d) as Hp by lia. specialize (H1 Hp). clear H0.
  unfold splice_front.
  assert (block_aligned (phead d) = true) as -> by by apply block_aligned_spec.
  simpl. unfold nblocks in *.
  replace (Z.max k 1) with k by lia.
  destruct (_ <? _)%nat eqn:E1; [apply Nat.ltb_lt in E1; lia|].
  destruct (Z.to_nat k <? _)%nat eqn:E2; [|apply Nat.ltb_ge in E2; lia]. simpl.
  do 2 eexists; split; [reflexivity|].
  set (res := mk (take _ _) _ _). set (d' := mk (drop _ _) _ _).
  assert (wfa res) as Hw1.
  { apply wfa_char. unfold nblocks. simpl. rewrite length_take_le by lia.
    clear Hw Hc. repeat split; auto; intros; try arith. by apply Forall_take. }
  assert (wfa d') as Hw2.
  { apply wfa_char. unfold nblocks. simpl. rewrite length_drop.
    clear Hw Hw1 Hc. repeat split; auto; intros; try arith. by apply Forall_drop. }
  split; [done|]. split.
  { rewrite (count_char _ Hw1). unfold nblocks. simpl. rewrite length_take_le by lia.
    clear Hw Hw1 Hw2 Hc. arith. }
  split; [simpl; clear Hw Hw1 Hw2 Hc; arith|].
  split. { simpl. intros E%(f_equal length). rewrite length_take_le in E by lia. simpl in E. lia. }
  split; [done|]. split.
  { rewrite (count_char _ Hw2), Hc. unfold nblocks. simpl. rewrite length_drop. lia. }
  simpl. intros E%(f_equal length). rewrite length_drop in E. simpl in E; lia.
Qed.

Lemma merge_front_ok l d :
  wfa d -> wfa l -> ptail l mod 32 = 0 -> blocks l <> [] ->
  exists d', merge_front l d = Ok d' /\ wfa d' /\ count d' = count d + count l.
Proof.
  intros Hw Hwl Hal Hne. unfold merge_front, empty.
  destruct (blocks d) as [|b bs] eqn:Eb.
  { exists l. split; [done|]. split; [done|]. rewrite (wfa_empty_count d); auto. }
  pose proof (count_char _ Hw) as Hc. pose proof (count_char _ Hwl) as Hcl.
  pose proof (size_count _ Hwl) as Hsz.
  pose proof Hw as (Hf & Hph & Hpt & Ha & H0 & H1)%wfa_char.
  pose proof Hwl as (Hfl & Hphl & Hptl & Hal' & H0l & H1l)%wfa_char.
  assert (0 < nblocks d) as Hp by (unfold nblocks; rewrite Eb; simpl; lia).
  assert (0 < nblocks l) as Hpl by (unfold nblocks; destruct (blocks l); [done|simpl; lia]).
  specialize (H1 Hp). specialize (H1l Hpl). clear H0 H0l.
  assert (block_aligned (phead d) = true) as -> by by apply block_aligned_spec.
  assert (block_aligned (ptail l) = true) as -> by by apply block_aligned_spec.
  simpl. destruct (blocks l) as [|bl bsl] eqn:Ebl; [done|].
  eexists; split; [reflexivity|].
  set (d' := mk _ _ _).
  assert (nblocks d' = nblocks l + nblocks d) as Hn'.
  { unfold nblocks, d'. rewrite Ebl, Eb. simpl. rewrite length_app. simpl. lia. }
  assert (wfa d') as Hw'.
  { apply wfa_char. rewrite Hn'. unfold d' at 1 2 3 4 5 6 7 8; simpl.
    rewrite Hsz, Hcl. clear Hw Hwl Hc Hcl Hsz.
    repeat split; auto; intros; try arith.
    rewrite app_comm_cons. apply Forall_app. by rewrite Eb in Hf. }
  split; [done|]. rewrite (count_char _ Hw'), Hn', Hc, Hcl. simpl.
  clear Hw Hwl Hc Hcl Hsz Hw'. arith.
Qed.

End Facts.
End DequeFacts.

Import DequeFacts.

Module DequeSeq.
Import BlockedDeque.

Section Seq.
Context {T : Type} `{Inhabited T}.
Implicit Types d : BlockedDeque.t T.

Ltac arith :=
  unfold wrap64, DQBLOCK_SIZE in *; Z.div_mod_to_equations; lia.

Lemma length_concat_full (bs : list (DequeBlock T)) :
  full bs -> length (concat bs) = (32 * length bs)%nat.
Proof.
  induction 1 as [|b bs Hb _ IH]; simpl; [done|].
  rewrite length_app, IH, Hb. unfold DQBLOCK_SIZE. lia.
Qed.

(** With the head on a block boundary the sequence is a prefix of the
    slots of the chain. *)
Lemma to_list_aligned d :
  wfa d -> to_list d = take (Z.to_nat (count d)) (concat (blocks d)).
Proof.
  intros Hw. pose proof Hw as [_ Hal]. unfold aligned in Hal.
  unfold to_list, count, head_offset. rewrite Hal. simpl. by rewrite Z.sub_0_r.
Qed.

Lemma length_to_list d : wfa d -> Z.of_nat (length (to_list d)) = count d.
Proof.
  intros Hw. rewrite (to_list_aligned _ Hw), length_take.
  pose proof Hw as (Hf & _)%wfa_char. rewrite (length_concat_full _ Hf).
  pose proof (wfa_count_nonneg _ Hw). destruct (count_bounds _ Hw); unfold nblocks in *; lia.
Qed.

Lemma snoc_inv {A} (l : list A) : l <> [] -> exists l0 x, l = l0 ++ [x].
Proof.
  intros Hne. destruct (last l) as [x|] eqn:E; [|by apply last_None in E].
  apply last_Some in E as [l0 ->]. eauto.
Qed.

Lemma slot_mod p : slot p = Z.to_nat (p mod 32).
Proof. unfold slot. by rewrite land_mask. Qed.

(** The shape [push_back] gives the chain: a fresh block is appended when
    [ptail] is on a block boundary, and the slot [ptail mod 32] of the last
    block is written. *)
Lemma alter_last {A} (f : A -> A) (l : list A) x :
  alter f (Nat.pred (length (l ++ [x]))) (l ++ [x]) = l ++ [f x].
Proof.
  rewrite length_app. simpl.
  replace (Nat.pred (length l + 1)) with (length l + 0)%nat by lia.
  by rewrite alter_app_r.
Qed.

Lemma write_tail_snoc i (v : T) bs0 b ph pt :
  write_tail i v (mk (bs0 ++ [b]) ph pt) = Ok (mk (bs0 ++ [<[i := v]> b]) ph pt).
Proof.
  unfold write_tail. cbn [blocks phead ptail].
  destruct bs0 as [|x l]; [done|]. cbn [app]. do 2 f_equal.
  exact (alter_last (fun b => <[i := v]> b) (x :: l) b).
Qed.

Lemma expand_tail d :
  expand false d = mk (blocks d ++ [newBlock]) (phead d) (ptail d).
Proof. unfold expand. by destruct (blocks d). Qed.

Lemma push_back_blocks v d d' :
  wfa d -> push_back v d = Ok d' ->
  (ptail d mod 32 = 0 /\ blocks d' = blocks d ++ [<[0%nat := v]> newBlock]) \/
  (ptail d mod 32 <> 0 /\ exists bs0 b,
     blocks d = bs0 ++ [b] /\
     blocks d' = bs0 ++ [<[Z.to_nat (ptail d mod 32) := v]> b]).
Proof.
  intros Hw. pose proof Hw as (Hf & Hph & Hpt & Ha & H0 & H1)%wfa_char.
  unfold push_back. destruct (block_aligned (ptail d)) eqn:Ept.
  - apply block_aligned_spec in Ept. rewrite expand_tail. cbn [ptail].
    rewrite write_tail_snoc, slot_mod, Ept.
    intros [= <-]. left. done.
  - apply block_aligned_false in Ept. rewrite slot_mod.
    destruct (decide (blocks d = [])) as [E|E].
    { destruct H0 as [_ E0]; [by apply nblocks_0|]. rewrite E0 in Ept. done. }
    destruct (snoc_inv (blocks d) E) as (bs0 & bl & Eb).
    destruct d as [bs ph pt]. simpl in *. subst bs. rewrite write_tail_snoc.
    intros [= <-]. right. split; [done|]. by exists bs0, bl.
Qed.

Lemma push_back_to_list v d d' :
  wfa d -> push_back v d = Ok d' -> to_list d' = to_list d ++ [v].
Proof.
  intros Hw Hp. destruct (push_back_ok v d Hw) as (d2 & E & Hw' & Hc' & _).
  assert (d2 = d') as -> by congruence.
  pose proof (count_char _ Hw) as Hc. pose proof (wfa_count_nonneg _ Hw) as Hnn.
  pose proof Hw as (Hf & Hph & Hpt & Ha & H0 & H1)%wfa_char.
  rewrite (to_list_aligned _ Hw), (to_list_aligned _ Hw'), Hc'.
  pose proof (length_concat_full _ Hf) as Hlen.
  destruct (push_back_blocks v d d' Hw Hp) as [[Ept ->]|(Ept & bs0 & b & Eb & ->)].
  - assert (count d = 32 * nblocks d) as Hcd.
    { destruct (decide (nblocks d = 0)) as [E0|E0].
      - rewrite (wfa_empty_count _ Hw); [lia|]. by apply nblocks_0.
      - rewrite Hc. arith. }
    unfold nblocks in Hcd. rewrite concat_app. simpl.
    rewrite (take_ge (concat (blocks d))) by lia. rewrite take_app_ge by lia.
    f_equal. replace (Z.to_nat (count d + 1) - length (concat (blocks d)))%nat with 1%nat by lia.
    done.
  - rewrite Eb in *. rewrite !concat_app. simpl. rewrite !app_nil_r.
    apply Forall_app in Hf as [Hf0 [Hfb _]%Forall_cons].
    pose proof (length_concat_full _ Hf0) as Hlen0.
    assert (count d = 32 * Z.of_nat (length bs0) + ptail d mod 32) as Hcd.
    { rewrite Hc. unfold nblocks. rewrite Eb, length_app. simpl. arith. }
    assert (0 < ptail d mod 32 < 32) by arith.
    rewrite !take_app_ge by lia. rewrite <- app_assoc. f_equal.
    replace (Z.to_nat (count d + 1) - length (concat bs0))%nat
      with (S (Z.to_nat (ptail d mod 32))) by lia.
    replace (Z.to_nat (count d) - length (concat bs0))%nat
      with (Z.to_nat (ptail d mod 32)) by lia.
    rewrite (take_S_r _ _ v).
    + by rewrite take_insert_ge by lia.
    + apply list_lookup_insert_eq. rewrite Hfb. unfold DQBLOCK_SIZE. lia.
Qed.

Lemma dequeue_back_blocks d r d' :
  wfa d -> dequeue_back d = Ok (r, d') ->
  exists bs0 b,
    blocks d = bs0 ++ [b] /\ r = b !!! Z.to_nat ((ptail d - 1) mod 32) /\
    (((ptail d - 1) mod 32 <> 0 /\ blocks d' = blocks d) \/
     ((ptail d - 1) mod 32 = 0 /\ blocks d' = bs0)).
Proof.
  intros Hw. pose proof Hw as (Hf & Hph & Hpt & Ha & H0 & H1)%wfa_char.
  unfold dequeue_back. intros (x & Hrd & Hrest)%bind_ok.
  unfold read_tail in Hrd. cbn [blocks ptail] in Hrd.
  destruct (last (blocks d)) as [b|] eqn:El; [|done].
  apply last_Some in El as [bs0 Eb]. injection Hrd as <-.
  exists bs0, b. split; [done|].
  assert (slot (wrap64 (ptail d - 1)) = Z.to_nat ((ptail d - 1) mod 32)) as Hs.
  { rewrite slot_mod. f_equal. arith. }
  split.
  { apply bind_ok in Hrest as (d2 & _ & [= <- _]). by rewrite Hs. }
  apply bind_ok in Hrest as (d2 & Hd2 & [= _ <-]). cbn [ptail] in Hd2.
  destruct (block_aligned (wrap64 (ptail d - 1))) eqn:Ept.
  - apply block_aligned_spec in Ept. right. split; [arith|].
    unfold single, reset, shrink in Hd2. cbn [blocks phead ptail] in Hd2.
    rewrite Eb in Hd2. destruct bs0 as [|x l].
    + cbn [app] in Hd2. apply bind_ok in Hd2 as (? & _ & (? & _ & Hd2)%bind_ok).
      by injection Hd2 as <-.
    + change ((x :: l) ++ [b]) with (x :: (l ++ [b])) in Hd2.
      destruct (l ++ [b]) as [|y l'] eqn:El; [by destruct l|].
      rewrite <- El in Hd2. change (x :: l ++ [b]) with ((x :: l) ++ [b]) in Hd2.
      rewrite removelast_last in Hd2. by injection Hd2 as <-.
  - apply block_aligned_false in Ept. left. split; [arith|]. by injection Hd2 as <-.
Qed.

Lemma dequeue_back_to_list d r d' :
  wfa d -> dequeue_back d = Ok (r, d') -> to_list d = to_list d' ++ [r].
Proof.
  intros Hw Hp.
  assert (blocks d <> []) as Hne.
  { intros E. unfold dequeue_back, read_tail in Hp. cbn [blocks] in Hp. by rewrite E in Hp. }
  destruct (dequeue_back_ok d Hw Hne) as (r2 & d2 & E & Hw' & Hc' & _).
  assert (d2 = d') as -> by congruence.
  pose proof (count_char _ Hw) as Hc. pose proof (wfa_count_nonneg _ Hw') as Hnn.
  pose proof Hw as (Hf & Hph & Hpt & Ha & H0 & H1)%wfa_char.
  rewrite (to_list_aligned _ Hw), (to_list_aligned _ Hw'), Hc'.
  destruct (dequeue_back_blocks d r d' Hw Hp) as (bs0 & b & Eb & -> & Hcase).
  rewrite Eb in Hf. apply Forall_app in Hf as [Hf0 [Hfb _]%Forall_cons].
  pose proof (length_concat_full _ Hf0) as Hlen0.
  assert (count d = 32 * Z.of_nat (length bs0) + (ptail d - 1) mod 32 + 1) as Hcd.
  { rewrite Hc. unfold nblocks. rewrite Eb, length_app. simpl. lia. }
  assert (0 <= (ptail d - 1) mod 32 < 32) by arith.
  assert (take (Z.to_nat (count d)) (concat (blocks d))
          = concat bs0 ++ take (Z.to_nat ((ptail d - 1) mod 32)) b
            ++ [b !!! Z.to_nat ((ptail d - 1) mod 32)]) as ->.
  { rewrite Eb, concat_app. simpl. rewrite app_nil_r, take_app_ge by lia. f_equal.
    replace (Z.to_nat (count d) - length (concat bs0))%nat
      with (S (Z.to_nat ((ptail d - 1) mod 32))) by lia.
    apply take_S_r. apply list_lookup_lookup_total_lt. rewrite Hfb. unfold DQBLOCK_SIZE. lia. }
  rewrite app_assoc. f_equal.
  destruct Hcase as [[Hs ->]|[Hs ->]].
  - rewrite Eb, concat_app. simpl. rewrite app_nil_r, take_app_ge by lia. f_equal. f_equal. lia.
  - rewrite Hs. simpl. rewrite app_nil_r. rewrite take_ge; [done|]. lia.
Qed.

Lemma splice_front_to_list k d res d' :
  wfa d -> 1 <= k < nblocks d -> splice_front k d = Ok (res, d') ->
  to_list d = to_list res ++ to_list d'.
Proof.
  intros Hw Hk Hs.
  destruct (splice_front_ok k d Hw Hk) as (res2 & d2 & E & Hwr & Hcr & _ & _ & Hwd & Hcd & _).
  assert (res2 = res /\ d2 = d') as [-> ->] by (split; congruence).
  pose proof Hw as (Hf & _)%wfa_char. pose proof (wfa_count_nonneg _ Hwd).
  rewrite (to_list_aligned _ Hw), (to_list_aligned _ Hwr), (to_list_aligned _ Hwd), Hcr, Hcd.
  unfold splice_front in Hs. apply bind_ok in Hs as (? & _ & Hs).
  replace (Z.max k 1) with k in Hs by lia.
  destruct (_ <? _)%nat; [done|]. apply bind_ok in Hs as (? & _ & [= <- <-]).
  cbn [blocks]. unfold nblocks in Hk.
  assert (length (concat (take (Z.to_nat k) (blocks d))) = Z.to_nat (32 * k)) as Hlk.
  { rewrite length_concat_full by (by apply Forall_take). rewrite length_take_le; lia. }
  rewrite <- (take_drop (Z.to_nat k) (blocks d)) at 1. rewrite concat_app.
  rewrite take_app_ge by lia. rewrite <- Hlk. rewrite firstn_all, Hlk.
  f_equal. f_equal. lia.
Qed.

Lemma steal_front_to_list d dst d' :
  wfa d -> 32 <= count d -> steal_front d = (dst, d') ->
  to_list d = to_list dst ++ to_list d'.
Proof.
  intros Hw Hge Hs.
  destruct (steal_front_ok d dst d' Hw Hge Hs) as (Hwr & Hcr & Hwd & Hcd).
  pose proof Hw as (Hf & _)%wfa_char. pose proof (wfa_count_nonneg _ Hwd).
  rewrite (to_list_aligned _ Hw), (to_list_aligned _ Hwr), (to_list_aligned _ Hwd), Hcr, Hcd.
  unfold steal_front in Hs. injection Hs as <- <-. cbn [blocks].
  destruct (blocks d) as [|b [|b2 bs]] eqn:Eb.
  - apply wfa_empty_count in Eb; [lia|done].
  - unfold single. cbn [blocks]. rewrite Eb. simpl. rewrite !app_nil_r.
    apply Forall_cons in Hf as [Hb _]. unfold DQBLOCK_SIZE in Hb.
    rewrite !take_ge by lia. by rewrite take_nil, app_nil_r.
  - unfold single. cbn [blocks]. rewrite Eb. cbn [take drop concat blocks]. rewrite app_nil_r.
    apply Forall_cons in Hf as [Hb _]. unfold DQBLOCK_SIZE in Hb.
    rewrite take_app_ge by lia. rewrite (take_ge b) by lia. f_equal. f_equal. lia.
Qed.

Lemma merge_front_to_list l d d' :
  wfa d -> wfa l -> ptail l mod 32 = 0 -> blocks l <> [] ->
  merge_front l d = Ok d' -> to_list d' = to_list l ++ to_list d.
Proof.
  intros Hw Hwl Hal Hne Hm.
  destruct (merge_front_ok l d Hw Hwl Hal Hne) as (d2 & E & Hw' & Hc').
  assert (d2 = d') as -> by congruence.
  pose proof Hwl as (Hfl & _)%wfa_char.
  pose proof (wfa_count_nonneg _ Hw). pose proof (wfa_count_nonneg _ Hwl).
  assert (count l = 32 * nblocks l) as Hcl.
  { rewrite (count_char _ Hwl).
    assert (0 < nblocks l) by (unfold nblocks; destruct (blocks l); [done|simpl; lia]).
    arith. }
  rewrite (to_list_aligned _ Hw), (to_list_aligned _ Hwl), (to_list_aligned _ Hw'), Hc'.
  pose proof (length_concat_full _ Hfl) as Hlen. unfold nblocks in Hcl.
  rewrite (take_ge (concat (blocks l))) by lia.
  unfold merge_front, empty in Hm. destruct (blocks d) as [|b bs] eqn:Eb.
  - injection Hm as <-. rewrite (wfa_empty_count d Hw Eb). simpl.
    rewrite app_nil_r, take_ge; [done|lia].
  - apply bind_ok in Hm as (? & _ & (? & _ & Hm)%bind_ok).
    destruct (blocks l) as [|bl bsl] eqn:Ebl; [done|]. injection Hm as <-.
    cbn [blocks]. change (bl :: bsl ++ b :: bs) with ((bl :: bsl) ++ b :: bs).
    rewrite concat_app, take_app_ge by lia. f_equal. f_equal. lia.
Qed.

End Seq.
End DequeSeq.

Lemma no_deque_failure_bind {A B} (r : result A) (k : A -> result B) :
  no_deque_failure r -> (forall a, r = Ok a -> no_deque_failure (k a)) ->
  no_deque_failure (r ≫= k).
Proof. destruct r; simpl; auto. Qed.

Module CentralFacts.
Import BlockedDeque CentralFreeList.

Lemma move_back_ok n (src dst : Deque) :
  wfa src -> wfa dst -> Z.of_nat n <= count src ->
  exists src' dst', move_back n src dst = Ok (src', dst') /\
    wfa src' /\ wfa dst' /\
    count src' = count src - Z.of_nat n /\ count dst' = count dst + Z.of_nat n.
Proof.
  revert src dst. induction n as [|n IH]; intros src dst Hs Hd Hn.
  - exists src, dst. simpl. split_and!; auto; lia.
  - assert (blocks src <> []) as Hne.
    { intros E. rewrite (wfa_empty_count _ Hs E) in Hn. lia. }
    destruct (dequeue_back_ok _ Hs Hne) as (p & src1 & E1 & Hs1 & Hc1 & _).
    destruct (push_back_ok p _ Hd) as (dst1 & E2 & Hd1 & Hc2 & _).
    destruct (IH src1 dst1 Hs1 Hd1) as (src' & dst' & E3 & ? & ? & ? & ?); [lia|].
    exists src', dst'. simpl. rewrite E1. simpl. rewrite E2. simpl. rewrite E3.
    split_and!; auto; lia.
Qed.

Lemma fill_ok n cur step (dst : Deque) :
  wfa dst ->
  exists dst', fill n cur step dst = Ok dst' /\ wfa dst' /\
    count dst' = count dst + Z.of_nat n /\ (n <> 0%nat -> blocks dst' <> []).
Proof.
  revert cur dst. induction n as [|n IH]; intros cur dst Hd.
  - exists dst. simpl. split_and!; auto; lia.
  - destruct (push_back_ok cur _ Hd) as (dst1 & E2 & Hd1 & Hc2 & _ & Hne).
    destruct (IH (cur + step) dst1 Hd1) as (dst' & E3 & ? & ? & ?).
    exists dst'. simpl. rewrite E2. simpl. rewrite E3.
    split_and!; auto; try lia. intros _.
    intros E. pose proof (wfa_empty_count _ H E).
    pose proof (wfa_count_pos _ Hd1 Hne). lia.
Qed.

Lemma moved_le elems : 0 <= elems -> 0 <= moved elems <= elems.
Proof. unfold moved. intros. destruct (_ <? _) eqn:E; Z.div_mod_to_equations; lia. Qed.

(** [bulkDealloc] under the preconditions of [splice_front] and
    [merge_front]. *)
Lemma bulkDealloc_ok (src : Deque) elems c :
  wfa src -> wfa (freeChunks c) -> 0 <= elems <= count src ->
  (32 <= elems -> elems / 32 < nblocks src) ->
  exists src' c', bulkDealloc src elems c = Ok (src', c') /\
    wfa src' /\ wfa (freeChunks c') /\
    count src' = count src - moved elems /\
    count (freeChunks c') = count (freeChunks c) + moved elems /\
    chunkSize c' = chunkSize c /\ elemsPerFetch c' = elemsPerFetch c /\
    bumpStart c' = bumpStart c /\ bumpEnd c' = bumpEnd c.
Proof.
  intros Hs Hf He Hb. unfold bulkDealloc, moved, DQBLOCK_SIZE.
  destruct (32 <=? elems) eqn:E.
  - apply Z.leb_le in E. assert ((elems <? 32) = false) as -> by lia.
    destruct (splice_front_ok (elems / 32) _ Hs) as
      (res & src' & E1 & Hr & Hcr & Har & Hner & Hs' & Hcs & _).
    { split; [|auto]. Z.div_mod_to_equations. lia. }
    rewrite E1. simpl.
    destruct (merge_front_ok res _ Hf Hr Har Hner) as (fc' & E2 & Hf' & Hcf).
    rewrite E2. simpl. do 2 eexists; split; [reflexivity|]. simpl.
    split_and!; auto; lia.
  - apply Z.leb_gt in E. assert ((elems <? 32) = true) as -> by lia.
    destruct (move_back_ok (Z.to_nat elems) src (freeChunks c)) as
      (src' & fc' & E1 & Hs' & Hf' & Hcs & Hcf); auto; [lia|].
    rewrite E1. simpl. do 2 eexists; split; [reflexivity|]. simpl.
    split_and!; auto; lia.
Qed.

End CentralFacts.

(* ---- lemmas ---- *)
Module CentralSeq.
Import BlockedDeque CentralFreeList DequeSeq CentralFacts.

(** The loop of [dequeue_back] and [push_back] carries the last [n]
    elements of [src] over to the back of [dst], last one first. *)
Lemma move_back_to_list n (src dst src' dst' : Deque) :
  wfa src -> wfa dst -> Z.of_nat n <= count src ->
  move_back n src dst = Ok (src', dst') ->
  exists mv, length mv = n /\
    to_list src = to_list src' ++ reverse mv /\
    to_list dst' = to_list dst ++ mv.
Proof.
  revert src dst. induction n as [|n IH]; intros src dst Hs Hd Hn Hm.
  - injection Hm as <- <-. exists []. by rewrite !app_nil_r.
  - assert (blocks src <> []) as Hne.
    { intros E. rewrite (wfa_empty_count _ Hs E) in Hn. lia. }
    destruct (dequeue_back_ok _ Hs Hne) as (p & src1 & E1 & Hs1 & Hc1 & _).
    destruct (push_back_ok p _ Hd) as (dst1 & E2 & Hd1 & Hc2 & _).
    simpl in Hm. rewrite E1 in Hm. simpl in Hm. rewrite E2 in Hm. simpl in Hm.
    destruct (IH src1 dst1 Hs1 Hd1) as (mv & Hl & Hsrc & Hdst); [lia|done|].
    exists (p :: mv). split; [simpl; lia|].
    rewrite (dequeue_back_to_list _ _ _ Hs E1), Hsrc, Hdst,
      (push_back_to_list _ _ _ Hd E2), reverse_cons.
    by rewrite <- !app_assoc.
Qed.

(** What [bulkDealloc] moves, element by element: below one block, the last
    [elems] elements of [src], appended in reverse order; from one block on,
    the first [32 * (elems / 32)] elements of [src], put in front. *)
Lemma bulkDealloc_to_list (src : Deque) elems c src' c' :
  wfa src -> wfa (freeChunks c) -> 0 <= elems <= count src ->
  (32 <= elems -> elems / 32 < nblocks src) ->
  bulkDealloc src elems c = Ok (src', c') ->
  exists mv, Z.of_nat (length mv) = moved elems /\
    if elems <? 32
    then to_list src = to_list src' ++ reverse mv /\
         to_list (freeChunks c') = to_list (freeChunks c) ++ mv
    else to_list src = mv ++ to_list src' /\
         to_list (freeChunks c') = mv ++ to_list (freeChunks c).
Proof.
  intros Hs Hf He Hb. unfold bulkDealloc, moved, DQBLOCK_SIZE.
  destruct (32 <=? elems) eqn:E.
  - apply Z.leb_le in E. assert ((elems <? 32) = false) as -> by lia.
    assert (1 <= elems / 32 < nblocks src) as Hk.
    { split; [|auto]. Z.div_mod_to_equations. lia. }
    destruct (splice_front_ok (elems / 32) _ Hs Hk) as
      (res & src1 & E1 & Hr & Hcr & Har & Hner & Hs' & Hcs & _).
    rewrite E1. simpl.
    destruct (merge_front_ok res _ Hf Hr Har Hner) as (fc' & E2 & Hf' & Hcf).
    rewrite E2. simpl. intros [= <- <-]. cbn [freeChunks].
    exists (to_list res). split_and!.
    + rewrite length_to_list by done. pose proof (wfa_count_nonneg _ Hr). lia.
    + by apply splice_front_to_list with (k := elems / 32).
    + by apply merge_front_to_list.
  - apply Z.leb_gt in E. assert ((elems <? 32) = true) as -> by lia.
    intros (x & Hm & Hx)%bind_ok. destruct x as [src1 fc1]. injection Hx as <- <-.
    cbn [freeChunks].
    assert (Z.of_nat (Z.to_nat elems) <= count src) as Hn by lia.
    destruct (move_back_to_list _ _ _ _ _ Hs Hf Hn Hm) as (mv & Hl & ? & ?).
    exists mv. split_and!; [lia|done..].
Qed.

End CentralSeq.

Module RegionFacts.
Import Region.

Lemma assert_ok c s : assert c s = Ok tt <-> c = true.
Proof. destruct c; simpl; split; congruence. Qed.

Lemma allocContiguous_spec sz bump e a b' e' :
  allocContiguous sz bump e = Ok (a, b', e') ->
  a = bump /\ b' = bump + sz /\ b' <= e' /\ (e' = e \/ e' <= 2 ^ 64).
Proof.
  unfold allocContiguous. destruct (e <? bump + sz) eqn:E.
  - intros (? & Hm & (? & Hb & [= <- <- <-])%bind_ok)%bind_ok.
    destruct x, x0. apply assert_ok in Hm, Hb. unfold mmap in Hm. lia.
  - intros [= <- <- <-]. lia.
Qed.

Lemma allocContiguous_safe sz bump e : no_deque_failure (allocContiguous sz bump e).
Proof.
  unfold allocContiguous. destruct (e <? bump + sz); [|done].
  destruct (mmap _ _); simpl; [|done].
  destruct (_ <=? _); simpl; [done|done].
Qed.

Lemma allocSize_range chunkSize :
  let allocSize := wrap64 (Z.shiftl (Z.max 32 (sizeToPages chunkSize)) kPageBits) in
  2 ^ 20 <= allocSize < 2 ^ 64.
Proof.
  unfold sizeToPages, kPageBits, kPageSize, wrap64. simpl.
  rewrite Z.shiftl_mul_pow2, Z.shiftr_div_pow2 by lia.
  Z.div_mod_to_equations. lia.
Qed.

Lemma sysAlloc_spec chunkSize r s e r' :
  region_ok r -> sysAlloc chunkSize r = Ok ((s, e), r') ->
  s = trackedBump r /\ e = trackedBump r' /\ region_ok r' /\
  chunkSize <= e - s /\ 2 ^ 20 <= e - s < 2 ^ 64.
Proof.
  intros (Hb & Hbe & He). unfold sysAlloc.
  pose proof (allocSize_range chunkSize) as Hr. simpl in Hr.
  intros ([] & Ha%assert_ok & H)%bind_ok.
  apply bind_ok in H as ([[a b] te] & H1 & H).
  apply bind_ok in H as ([[a2 sb] se] & H2 & H).
  injection H as <- <- <-.
  apply allocContiguous_spec in H1 as (-> & -> & ? & ?).
  unfold region_ok. simpl. split_and!; try lia.
Qed.

Lemma sysAlloc_safe chunkSize r : no_deque_failure (sysAlloc chunkSize r).
Proof.
  unfold sysAlloc. apply no_deque_failure_bind.
  { destruct (_ <=? _); simpl; [done|done]. }
  intros _ _. apply no_deque_failure_bind; [apply allocContiguous_safe|].
  intros [[? ?] ?] _. apply no_deque_failure_bind; [apply allocContiguous_safe|].
  by intros [[? ?] ?] _.
Qed.

End RegionFacts.

Module BulkAllocFacts.
Import BlockedDeque CentralFreeList RegionFacts CentralFacts.

Lemma rounds_le start e step n :
  0 <= step -> 0 <= n -> e - start <= step * n -> Z.of_nat (rounds start e step) <= n.
Proof.
  intros. unfold rounds. destruct (decide (step = 0)) as [->|].
  - rewrite Z.div_0_r. simpl. lia.
  - assert ((e - start + step - 1) / step < n + 1); [|lia].
    apply Z.div_lt_upper_bound; [lia|]. nia.
Qed.

Lemma bulkAlloc_spec (dst : Deque) c r :
  central_ok c -> wfa dst -> region_ok r ->
  no_deque_failure (bulkAlloc dst c r) /\
  forall dst' c' r', bulkAlloc dst c r = Ok (dst', c', r') ->
    wfa dst' /\ central_ok c' /\ region_ok r' /\
    Region.trackedBump r <= Region.trackedBump r' /\
    chunkSize c' = chunkSize c /\ elemsPerFetch c' = elemsPerFetch c /\
    (count dst' = 32 \/ count dst <= count dst' <= count dst + elemsPerFetch c).
Proof.
  intros (Hf & Hcs & Hepf) Hd Hr. unfold bulkAlloc.
  pose proof (size_count _ Hf) as Hsz. pose proof (wfa_count_nonneg _ Hf) as Hnn.
  destruct (elemsPerFetch c <=? size (freeChunks c)) eqn:E1.
  - apply Z.leb_le in E1.
    assert (elemsPerFetch c <= count (freeChunks c)) as Hle.
    { rewrite Hsz in E1. unfold wrap64 in E1. Z.div_mod_to_equations. lia. }
    destruct (DQBLOCK_SIZE <=? elemsPerFetch c) eqn:E2.
    + apply Z.leb_le in E2. unfold DQBLOCK_SIZE in E2.
      destruct (steal_front (freeChunks c)) as [dst1 fc1] eqn:Es.
      apply steal_front_ok in Es as (? & ? & ? & ?); [|done|lia].
      split; [done|]. intros ??? [= <- <- <-]. unfold central_ok. simpl.
      split_and!; auto; lia.
    + apply Z.leb_gt in E2.
      destruct (move_back_ok (Z.to_nat (elemsPerFetch c)) (freeChunks c) dst)
        as (fc' & dst1 & -> & ? & ? & ? & ?); auto; [lia|].
      simpl. split; [done|]. intros ??? [= <- <- <-]. unfold central_ok. simpl.
      split_and!; auto; lia.
  - clear E1.
    set (pre := if bumpStart c + chunkSize c <=? bumpEnd c then _ else _).
    assert (no_deque_failure pre /\ forall bs be r1, pre = Ok (bs, be, r1) ->
              region_ok r1 /\ Region.trackedBump r <= Region.trackedBump r1 /\
              chunkSize c <= be - bs) as [Hpre1 Hpre2].
    { unfold pre. destruct (_ <=? _) eqn:E.
      - split; [done|]. intros ??? [= <- <- <-]. split_and!; auto; lia.
      - pose proof (sysAlloc_safe (chunkSize c) r) as Hs.
        destruct (Region.sysAlloc (chunkSize c) r) as [[[s e] r1]|] eqn:Esys; simpl; [|done].
        split; [done|]. intros ??? [= <- <- <-].
        apply sysAlloc_spec in Esys as (-> & -> & ? & ? & ?); [|done].
        split_and!; auto; lia. }
    destruct pre as [[[bs be] r1]|]; [|done]. simpl.
    destruct (Hpre2 _ _ _ eq_refl) as (Hr1 & Hmono & Hwin). clear Hpre1 Hpre2.
    set (want := wrap32 (chunkSize c * elemsPerFetch c)).
    assert (0 <= want <= chunkSize c * elemsPerFetch c) as Hwant.
    { unfold want, wrap32. assert (0 <= chunkSize c * elemsPerFetch c) by nia.
      Z.div_mod_to_equations. lia. }
    destruct (want <? be - bs) eqn:E3; simpl.
    + destruct (fill_ok (rounds bs (bs + want) (chunkSize c)) bs (chunkSize c) dst Hd)
        as (dst1 & -> & ? & Hc1 & _).
      simpl. split; [done|]. intros ??? [= <- <- <-]. unfold central_ok. simpl.
      split_and!; auto; try lia. right.
      pose proof (rounds_le bs (bs + want) (chunkSize c) (elemsPerFetch c)). lia.
    + destruct (chunkSize c =? 0) eqn:E4; simpl; [split; [by intros []|done]|].
      apply Z.eqb_neq in E4. apply Z.ltb_ge in E3.
      set (avail := wrap64 (_ `quot` _)).
      assert (0 <= avail /\ chunkSize c * avail <= be - bs /\ avail <= elemsPerFetch c)
        as (Hav0 & Hav1 & Hav2).
      { unfold avail, wrap64. rewrite Z.quot_div_nonneg by lia.
        assert (0 <= (be - bs) / chunkSize c) by (apply Z.div_pos; lia).
        assert (chunkSize c * ((be - bs) / chunkSize c) <= be - bs)
          by (apply Z.mul_div_le; lia).
        assert ((be - bs) / chunkSize c <= elemsPerFetch c).
        { apply Z.div_le_upper_bound; lia. }
        rewrite Z.mod_small; [lia|]. split; [lia|]. nia. }
      assert (wrap64 (chunkSize c * avail) = chunkSize c * avail) as ->.
      { unfold wrap64. apply Z.mod_small. nia. }
      destruct (fill_ok (rounds bs (bs + chunkSize c * avail) (chunkSize c)) bs (chunkSize c) dst Hd)
        as (dst1 & -> & ? & Hc1 & _).
      simpl. split; [done|]. intros ??? [= <- <- <-]. unfold central_ok. simpl.
      split_and!; auto; try lia. right.
      pose proof (rounds_le bs (bs + chunkSize c * avail) (chunkSize c) avail). lia.
Qed.

End BulkAllocFacts.

Module LargeHeapFacts.
Import LargeHeap.

Section Extreme.
Context {V : Type}.
Implicit Types m : gmap Z V.

Lemma extreme_list_none lo ok (l : list (Z * V)) :
  foldr (extreme_step lo ok) None l = None ->
  forall b w, (b, w) ∈ l -> ok b = false.
Proof.
  induction l as [|[k x] l IH]; simpl; intros Hf b w Hb; [by apply elem_of_nil in Hb|]. unfold extreme_step at 1 in Hf; simpl in Hf.
  destruct (ok k) eqn:Ek.
  - destruct (foldr _ _ l) as [[k' x']|]; simpl in Hf; [destruct (better lo k k')|]; done.
  - apply elem_of_cons in Hb as [[= -> ->]|Hb]; [done|by eapply IH].
Qed.

Lemma extreme_list_spec lo ok (l : list (Z * V)) a v :
  foldr (extreme_step lo ok) None l = Some (a, v) ->
  (a, v) ∈ l /\ ok a = true /\
  forall b w, (b, w) ∈ l -> ok b = true -> if lo then a <= b else b <= a.
Proof.
  revert a v. induction l as [|[k x] l IH]; intros a v; simpl; [done|]. unfold extreme_step at 1; simpl.
  destruct (ok k) eqn:Ek.
  - destruct (foldr _ _ l) as [[k' x']|] eqn:Ef.
    + destruct (IH _ _ eq_refl) as (Hin & Hok & Hext).
      simpl. destruct (better lo k k') eqn:Eb; intros [= <- <-].
      * split; [left|]. split; [done|]. intros b w Hb Hokb; apply elem_of_cons in Hb as [Hb|Hb]; [simplify_eq|]; revert Hokb; [intros Hokb|intros Hokb..].
        { destruct lo; lia. }
        specialize (Hext _ _ Hb Hokb). unfold better in Eb. destruct lo; lia.
      * split; [by right|]. split; [done|].
        intros b w Hb Hokb; apply elem_of_cons in Hb as [Hb|Hb]; [simplify_eq|]; revert Hokb; [intros Hokb|intros Hokb..]; [|by eapply Hext].
        unfold better in Eb. destruct lo; lia.
    + intros [= <- <-]. split; [left|]. split; [done|].
      intros b w Hb Hokb; apply elem_of_cons in Hb as [Hb|Hb]; [simplify_eq|]; revert Hokb; [intros Hokb|intros Hokb..]; [destruct lo; lia|].
      pose proof (extreme_list_none _ _ _ Ef _ _ Hb). congruence.
  - intros Hf. destruct (IH _ _ Hf) as (Hin & Hok & Hext).
    split; [by right|]. split; [done|].
    intros b w Hb Hokb; apply elem_of_cons in Hb as [Hb|Hb]; [simplify_eq|]; revert Hokb; [intros Hokb|intros Hokb..]; [congruence|by eapply Hext].
Qed.

Lemma extreme_Some lo ok m a v :
  extreme lo ok m = Some (a, v) ->
  m !! a = Some v /\ ok a = true /\
  forall b w, m !! b = Some w -> ok b = true -> if lo then a <= b else b <= a.
Proof.
  intros (Hin & Hok & Hext)%extreme_list_spec.
  split; [by apply elem_of_map_to_list in Hin|]. split; [done|].
  intros b w Hb. apply (Hext b w). by apply elem_of_map_to_list.
Qed.

Lemma extreme_None lo ok m b w :
  extreme lo ok m = None -> m !! b = Some w -> ok b = false.
Proof.
  intros Hn Hb. eapply extreme_list_none; [exact Hn|]. by apply elem_of_map_to_list.
Qed.

Lemma prev_Some k m a v :
  prev k m = Some (a, v) ->
  m !! a = Some v /\ a < k /\ forall b w, m !! b = Some w -> b < k -> b <= a.
Proof.
  intros (? & ?%Z.ltb_lt & Hext)%extreme_Some. split_and!; auto.
  intros b w Hb Hlt. apply (Hext b w Hb). by apply Z.ltb_lt.
Qed.

Lemma prev_None k m b w : prev k m = None -> m !! b = Some w -> k <= b.
Proof. intros Hn Hb. pose proof (extreme_None _ _ _ _ _ Hn Hb) as ?%Z.ltb_ge. done. Qed.

Lemma next_Some k m a v :
  next k m = Some (a, v) ->
  m !! a = Some v /\ k < a /\ forall b w, m !! b = Some w -> k < b -> a <= b.
Proof.
  intros (? & ?%Z.ltb_lt & Hext)%extreme_Some. split_and!; auto.
  intros b w Hb Hlt. apply (Hext b w Hb). by apply Z.ltb_lt.
Qed.

Lemma next_None k m b w : next k m = None -> m !! b = Some w -> b <= k.
Proof. intros Hn Hb. pose proof (extreme_None _ _ _ _ _ Hn Hb) as ?%Z.ltb_ge. done. Qed.

Lemma lower_bound_Some k m a v :
  lower_bound k m = Some (a, v) ->
  m !! a = Some v /\ k <= a /\ forall b w, m !! b = Some w -> k <= b -> a <= b.
Proof.
  intros (? & ?%Z.leb_le & Hext)%extreme_Some. split_and!; auto.
  intros b w Hb Hlt. apply (Hext b w Hb). by apply Z.leb_le.
Qed.

Lemma lower_bound_None k m b w : lower_bound k m = None -> m !! b = Some w -> b < k.
Proof. intros Hn Hb. pose proof (extreme_None _ _ _ _ _ Hn Hb) as ?%Z.leb_gt. done. Qed.

End Extreme.

Implicit Types f : gmap Z (gset Z).

Lemma is_free_spec f a s : is_free s a f = true <-> free_at f a s.
Proof.
  unfold is_free, free_at. destruct (f !! s) as [S|].
  - rewrite bool_decide_eq_true. naive_solver.
  - naive_solver.
Qed.

Lemma free_at_erase f a s b sb :
  free_at (erase_free s a f) b sb <-> free_at f b sb /\ ~ (b = a /\ sb = s).
Proof.
  unfold erase_free, free_at. destruct (f !! s) as [S|] eqn:Es.
  - case_decide as Hd.
    + split.
      * intros (S' & [Hne Hl]%lookup_delete_Some & Hin). naive_solver.
      * intros ((S' & Hl & Hin) & Hn). destruct (decide (sb = s)) as [->|].
        { assert (S' = S) as -> by congruence. set_solver. }
        exists S'. by rewrite lookup_delete_ne.
    + split.
      * intros (S' & [[<- <-]|[Hne Hl]]%lookup_insert_Some & Hin).
        { split; [exists S; set_solver|set_solver]. }
        naive_solver.
      * intros ((S' & Hl & Hin) & Hn). destruct (decide (sb = s)) as [->|].
        { assert (S' = S) as -> by congruence. exists (S ∖ {[a]}).
          rewrite lookup_insert_eq. set_solver. }
        exists S'. by rewrite lookup_insert_ne.
  - split; [|naive_solver]. intros (S' & Hl & Hin). split; [eauto|].
    intros [-> ->]. congruence.
Qed.

Lemma free_at_insert f a s b sb :
  free_at (insert_free s a f) b sb <-> free_at f b sb \/ (b = a /\ sb = s).
Proof.
  unfold insert_free, free_at. destruct (f !! s) as [S|] eqn:Es.
  - split.
    + intros (S' & [[<- <-]|[Hne Hl]]%lookup_insert_Some & Hin).
      * apply elem_of_union in Hin as [?|?%elem_of_singleton]; [left; eauto|by right].
      * left; eauto.
    + intros [(S' & Hl & Hin)|[-> ->]].
      * destruct (decide (sb = s)) as [->|].
        { assert (S' = S) as -> by congruence. exists (S ∪ {[a]}).
          rewrite lookup_insert_eq. set_solver. }
        exists S'. by rewrite lookup_insert_ne.
      * exists (S ∪ {[a]}). rewrite lookup_insert_eq. set_solver.
  - split.
    + intros (S' & [[<- <-]|[Hne Hl]]%lookup_insert_Some & Hin).
      * right. set_solver.
      * left; eauto.
    + intros [(S' & Hl & Hin)|[-> ->]].
      * exists S'. rewrite lookup_insert_ne; [done|]. congruence.
      * exists {[a]}. rewrite lookup_insert_eq. set_solver.
Qed.

Lemma buckets_erase f a s :
  (forall s S, f !! s = Some S -> S <> ∅) ->
  forall s' S, erase_free s a f !! s' = Some S -> S <> ∅.
Proof.
  intros Hb s' S'. unfold erase_free. destruct (f !! s) as [S|] eqn:Es; [|apply Hb].
  case_decide.
  - intros [_ ?]%lookup_delete_Some. by eapply Hb.
  - intros [[<- <-]|[_ ?]]%lookup_insert_Some; [done|by eapply Hb].
Qed.

Lemma buckets_insert f a s :
  (forall s S, f !! s = Some S -> S <> ∅) ->
  forall s' S, insert_free s a f !! s' = Some S -> S <> ∅.
Proof.
  intros Hb s' S'. unfold insert_free. destruct (f !! s) as [S|] eqn:Es.
  - intros [[<- <-]|[_ ?]]%lookup_insert_Some; [set_solver|by eapply Hb].
  - intros [[<- <-]|[_ ?]]%lookup_insert_Some; [set_solver|by eapply Hb].
Qed.

Lemma insert_free_id f a s : free_at f a s -> insert_free s a f = f.
Proof.
  intros (S & Hl & Hin). unfold insert_free. rewrite Hl.
  apply insert_id. rewrite Hl. f_equal. set_solver.
Qed.

End LargeHeapFacts.

Module LargeHeapInv.
Import LargeHeap LargeHeapFacts.

Implicit Types (f : gmap Z (gset Z)) (cs : gmap Z Z).

Lemma trackedBase_pos : 0 < Region.trackedBase.
Proof. reflexivity. Qed.

Ltac inv_fields Hinv :=
  destruct Hinv as [HI1 HI2 HI3 HI4 HIpos HIbnd HIsp]; simpl in *.

Lemma merge_prev_spec f cs r p sp chunk sz f' cs' :
  lh_inv (mk f cs) r -> cs !! p = Some sp -> used f p ->
  merge_prev p sp f cs = (chunk, sz, f', cs') ->
  lh_inv (mk f' cs') r /\ cs' !! chunk = Some sz /\ used f' chunk /\
  closed_left f' chunk.
Proof.
  intros Hinv Hp Hu. pose proof Hinv as Hinv0. inv_fields Hinv.
  pose proof trackedBase_pos as Hbase.
  unfold merge_prev. destruct (prev p cs) as [[q sq]|] eqn:Eprev.
  - apply prev_Some in Eprev as (Hq & Hqp & Hmax).
    destruct ((q + sq =? p) && is_free sq q f) eqn:Ec.
    + apply andb_true_iff in Ec as [Eadj%Z.eqb_eq Efree%is_free_spec].
      pose proof (HIbnd _ _ Hp). pose proof (HIbnd _ _ Hq).
      pose proof (HIpos _ _ Hp). pose proof (HIpos _ _ Hq).
      rewrite wrap64_small by lia. intros [= <- <- <- <-].
      split_and!.
      * constructor; simpl; auto.
        -- intros a s [Hf Hne]%free_at_erase. pose proof (HI1 _ _ Hf) as Ha.
           assert (a <> p) by (intros ->; by eapply Hu).
           assert (a <> q) by (intros ->; apply Hne; split; congruence).
           by rewrite lookup_insert_ne, lookup_delete_ne.
        -- intros a sa b sb Ha Hb Hlt.
           apply lookup_insert_Some in Ha as [[<- <-]|[? [? Ha]%lookup_delete_Some]];
           apply lookup_insert_Some in Hb as [[<- <-]|[? [? Hb]%lookup_delete_Some]].
           ++ lia.
           ++ destruct (decide (b < p)) as [Hbp|Hbp]; [specialize (Hmax _ _ Hb Hbp); lia|].
              assert (p < b) by lia. pose proof (HI2 _ _ _ _ Hp Hb). lia.
           ++ by eapply HI2.
           ++ by eapply HI2.
        -- intros a sa b sb [Ha _]%free_at_erase [Hb _]%free_at_erase. by eapply HI3.
        -- by apply buckets_erase.
        -- intros a s [[<- <-]|[? [? Ha]%lookup_delete_Some]]%lookup_insert_Some; [lia|].
           by eapply HIpos.
        -- intros a s [[<- <-]|[? [? Ha]%lookup_delete_Some]]%lookup_insert_Some; [lia|].
           by eapply HIbnd.
      * by rewrite lookup_insert_eq.
      * intros s [Hf Hne]%free_at_erase. apply Hne. split; [done|].
        apply HI1 in Hf. congruence.
      * intros b sb [Hb _]%free_at_erase. by eapply HI3.
    + intros [= <- <- <- <-]. split_and!; auto.
      intros b sb Hb Hadj. pose proof (HI1 _ _ Hb) as Hcb.
      pose proof (HIpos _ _ Hcb). assert (b < p) as Hbp by lia.
      pose proof (Hmax _ _ Hcb Hbp).
      destruct (decide (b = q)) as [->|].
      * assert (sb = sq) as -> by congruence.
        apply andb_false_iff in Ec as [?%Z.eqb_neq|Ec]; [lia|].
        apply is_free_spec in Hb. congruence.
      * assert (b < q) as Hbq by lia. pose proof (HI2 _ _ _ _ Hcb Hq Hbq). lia.
  - intros [= <- <- <- <-]. split_and!; auto.
    intros b sb Hb Hadj. pose proof (HI1 _ _ Hb) as Hcb.
    pose proof (HIpos _ _ Hcb). pose proof (prev_None _ _ _ _ Eprev Hcb). lia.
Qed.

Lemma merge_next_spec f cs r chunk sz sz' f' cs' :
  lh_inv (mk f cs) r -> cs !! chunk = Some sz -> used f chunk -> closed_left f chunk ->
  merge_next chunk sz f cs = (sz', f', cs') ->
  lh_inv (mk f' cs') r /\ cs' !! chunk = Some sz' /\ used f' chunk /\
  closed_left f' chunk /\
  (forall b sb, free_at f' b sb -> chunk + sz' <> b).
Proof.
  intros Hinv Hp Hu Hcl. pose proof Hinv as Hinv0. inv_fields Hinv.
  pose proof trackedBase_pos as Hbase.
  unfold merge_next. destruct (next chunk cs) as [[n sn]|] eqn:Enext.
  - apply next_Some in Enext as (Hn & Hpn & Hmin).
    destruct ((chunk + sz =? n) && is_free sn n f) eqn:Ec.
    + apply andb_true_iff in Ec as [Eadj%Z.eqb_eq Efree%is_free_spec].
      pose proof (HIbnd _ _ Hp). pose proof (HIbnd _ _ Hn).
      pose proof (HIpos _ _ Hp). pose proof (HIpos _ _ Hn).
      rewrite wrap64_small by lia. intros [= <- <- <-].
      split_and!.
      * constructor; simpl; auto.
        -- intros a s [Hf Hne]%free_at_erase. pose proof (HI1 _ _ Hf) as Ha.
           assert (a <> chunk) by (intros ->; by eapply Hu).
           assert (a <> n) by (intros ->; apply Hne; split; congruence).
           by rewrite lookup_insert_ne, lookup_delete_ne.
        -- intros a sa b sb Ha Hb Hlt.
           apply lookup_insert_Some in Ha as [[<- <-]|[? [? Ha]%lookup_delete_Some]];
           apply lookup_insert_Some in Hb as [[<- <-]|[? [? Hb]%lookup_delete_Some]].
           ++ lia.
           ++ pose proof (Hmin _ _ Hb Hlt). assert (n < b) by lia.
              pose proof (HI2 _ _ _ _ Hn Hb). lia.
           ++ by eapply HI2.
           ++ by eapply HI2.
        -- intros a sa b sb [Ha _]%free_at_erase [Hb _]%free_at_erase. by eapply HI3.
        -- by apply buckets_erase.
        -- intros a s [[<- <-]|[? [? Ha]%lookup_delete_Some]]%lookup_insert_Some; [lia|].
           by eapply HIpos.
        -- intros a s [[<- <-]|[? [? Ha]%lookup_delete_Some]]%lookup_insert_Some; [lia|].
           by eapply HIbnd.
      * by rewrite lookup_insert_eq.
      * intros s [Hf _]%free_at_erase. by eapply Hu.
      * intros b sb [Hb _]%free_at_erase. by eapply Hcl.
      * intros b sb [Hb _]%free_at_erase Hadj. eapply (HI3 n sn b sb); auto. lia.
    + intros [= <- <- <-]. split_and!; auto.
      intros b sb Hb Hadj. pose proof (HI1 _ _ Hb) as Hcb.
      pose proof (HIpos _ _ Hp). assert (chunk < b) as Hbp by lia.
      pose proof (Hmin _ _ Hcb Hbp).
      destruct (decide (b = n)) as [->|].
      * assert (sb = sn) as -> by congruence.
        apply andb_false_iff in Ec as [?%Z.eqb_neq|Ec]; [lia|].
        apply is_free_spec in Hb. congruence.
      * assert (n < b) as Hbq by lia. pose proof (HI2 _ _ _ _ Hp Hn Hpn). lia.
  - intros [= <- <- <-]. split_and!; auto.
    intros b sb Hb Hadj. pose proof (HI1 _ _ Hb) as Hcb.
    pose proof (HIpos _ _ Hp). pose proof (next_None _ _ _ _ Enext Hcb). lia.
Qed.

Lemma insert_free_inv f cs r chunk sz :
  lh_inv (mk f cs) r -> cs !! chunk = Some sz -> closed_left f chunk ->
  (forall b sb, free_at f b sb -> chunk + sz <> b) ->
  lh_inv (mk (insert_free sz chunk f) cs) r.
Proof.
  intros Hinv Hp Hcl Hcr. inv_fields Hinv. constructor; simpl; auto.
  - intros a s [Hf|[-> ->]]%free_at_insert; auto.
  - intros a sa b sb [Ha|[-> ->]]%free_at_insert [Hb|[-> ->]]%free_at_insert.
    + by eapply HI3.
    + by eapply Hcl.
    + by eapply Hcr.
    + pose proof (HIpos _ _ Hp). lia.
  - by apply buckets_insert.
Qed.

(** Freeing a chunk that is free already changes nothing. *)
Lemma unlocked_dealloc_free h r p s :
  lh_inv h r -> free_at (freeChunkSets h) p s -> unlocked_dealloc p h = Ok h.
Proof.
  intros Hinv Hf. destruct h as [f cs]. inv_fields Hinv.
  pose proof (HI1 _ _ Hf) as Hp. unfold unlocked_dealloc. simpl. rewrite Hp.
  assert (merge_prev p s f cs = (p, s, f, cs)) as ->.
  { unfold merge_prev. destruct (prev p cs) as [[q sq]|]; [|done].
    destruct ((q + sq =? p) && is_free sq q f) eqn:Ec; [|done].
    apply andb_true_iff in Ec as [Eadj%Z.eqb_eq Efree%is_free_spec].
    by destruct (HI3 _ _ _ _ Efree Hf). }
  assert (merge_next p s f cs = (s, f, cs)) as ->.
  { unfold merge_next. destruct (next p cs) as [[n sn]|]; [|done].
    destruct ((p + s =? n) && is_free sn n f) eqn:Ec; [|done].
    apply andb_true_iff in Ec as [Eadj%Z.eqb_eq Efree%is_free_spec].
    by destruct (HI3 _ _ _ _ Hf Efree). }
  by rewrite insert_free_id.
Qed.

Lemma unlocked_dealloc_inv h r p h' :
  lh_inv h r -> unlocked_dealloc p h = Ok h' -> lh_inv h' r.
Proof.
  intros Hinv Hd.
  destruct (chunkSizes h !! p) as [sp|] eqn:Hp; [|by unfold unlocked_dealloc in Hd; rewrite Hp in Hd].
  destruct (is_free sp p (freeChunkSets h)) eqn:Hnf.
  { apply is_free_spec in Hnf as Hf. rewrite (unlocked_dealloc_free _ _ _ _ Hinv Hf) in Hd. by injection Hd as <-. }
  unfold unlocked_dealloc in Hd. rewrite Hp in Hd. destruct h as [f cs]. simpl in *.
  assert (used f p) as Hu.
  { intros s Hs. pose proof (inv_free_sized _ _ Hinv _ _ Hs) as Hs'. simpl in Hs'.
    assert (s = sp) as -> by congruence. apply is_free_spec in Hs. congruence. }
  destruct (merge_prev p sp f cs) as [[[chunk sz] f1] cs1] eqn:E1.
  apply (merge_prev_spec _ _ r) in E1 as (Hinv1 & Hc1 & Hu1 & Hcl1); auto.
  destruct (merge_next chunk sz f1 cs1) as [[sz2 f2] cs2] eqn:E2.
  apply (merge_next_spec _ _ r) in E2 as (Hinv2 & Hc2 & Hu2 & Hcl2 & Hcr2); auto.
  injection Hd as <-. by apply insert_free_inv.
Qed.

Lemma unlocked_dealloc_ok h p : is_Some (chunkSizes h !! p) -> is_ok (unlocked_dealloc p h).
Proof.
  intros [sp Hp]. unfold unlocked_dealloc. rewrite Hp.
  destruct (merge_prev _ _ _ _) as [[[? ?] ?] ?]. by destruct (merge_next _ _ _ _) as [[? ?] ?].
Qed.

End LargeHeapInv.

Module LargeHeapAlloc.
Import LargeHeap LargeHeapFacts LargeHeapInv RegionFacts.

Implicit Types (f : gmap Z (gset Z)) (cs : gmap Z Z).

Lemma lh_inv_mono h r r' :
  lh_inv h r -> Region.trackedBump r <= Region.trackedBump r' ->
  Region.trackedBump r' <= 2 ^ 64 -> lh_inv h r'.
Proof.
  intros [HI1 HI2 HI3 HI4 HIpos HIbnd HIsp] Hle Hsp. constructor; auto.
  intros a s Ha. specialize (HIbnd _ _ Ha). lia.
Qed.

(** Cutting [sz] bytes off the front of the span [start, start + total),
    which no other chunk overlaps and which is not in the free index. *)
Lemma carve f cs r start total sz :
  (forall a s, free_at f a s -> cs !! a = Some s /\ a <> start) ->
  (forall a sa b sb, cs !! a = Some sa -> cs !! b = Some sb -> a < b -> a + sa <= b) ->
  (forall b sb, cs !! b = Some sb -> b <> start -> b + sb <= start \/ start + total <= b) ->
  (forall a sa b sb, free_at f a sa -> free_at f b sb -> a + sa <> b) ->
  (forall s S, f !! s = Some S -> S <> ∅) ->
  (forall a s, cs !! a = Some s -> a <> start -> 0 < s) ->
  (forall a s, cs !! a = Some s -> a <> start ->
     Region.trackedBase <= a /\ a + s <= Region.trackedBump r) ->
  Region.trackedBase <= start -> start + total <= Region.trackedBump r ->
  Region.trackedBump r <= 2 ^ 64 ->
  0 <= sz <= total -> 0 < total ->
  (sz = total -> lh_inv (mk f (<[start := sz]> cs)) r) /\
  (sz < total -> lh_inv (mk f (<[start + sz := total - sz]> (<[start := sz]> cs))) r).
Proof.
  intros HF1 HC2 HC2' HF3 HF4 HCpos HCbnd Hs1 Hs2 Hsp Hsz Htot. split; intros Hcase.
  - constructor; simpl; auto.
    + intros a s Ha. destruct (HF1 _ _ Ha). by rewrite lookup_insert_ne.
    + intros a sa b sb [[<- <-]|[? Ha]]%lookup_insert_Some [[<- <-]|[? Hb]]%lookup_insert_Some Hlt.
      * lia.
      * destruct (HC2' _ _ Hb); auto; try lia. pose proof (HCpos _ _ Hb). lia.
      * destruct (HC2' _ _ Ha); auto; lia.
      * by eapply HC2.
    + intros a s [[<- <-]|[? Ha]]%lookup_insert_Some; [lia|]. by eapply HCpos.
    + intros a s [[<- <-]|[? Ha]]%lookup_insert_Some; [lia|]. by eapply HCbnd.
  - constructor; simpl; auto.
    + intros a s Ha. destruct (HF1 _ _ Ha) as [Hc Hne].
      pose proof (HCpos _ _ Hc Hne). destruct (HC2' _ _ Hc Hne).
      * rewrite !lookup_insert_ne; auto; lia.
      * rewrite !lookup_insert_ne; auto; lia.
    + intros a sa b sb Ha Hb Hlt.
      apply lookup_insert_Some in Ha as [[<- <-]|[? [[<- <-]|[? Ha]]%lookup_insert_Some]];
      apply lookup_insert_Some in Hb as [[<- <-]|[? [[<- <-]|[? Hb]]%lookup_insert_Some]];
        try lia.
      * destruct (HC2' _ _ Hb); auto; try lia. pose proof (HCpos _ _ Hb). lia.
      * destruct (HC2' _ _ Hb); auto; try lia. pose proof (HCpos _ _ Hb). lia.
      * destruct (HC2' _ _ Ha); auto; lia.
      * destruct (HC2' _ _ Ha); auto; lia.
      * by eapply HC2.
    + intros a s [[<- <-]|[? [[<- <-]|[? Ha]]%lookup_insert_Some]]%lookup_insert_Some;
        [lia|lia|]. by eapply HCpos.
    + intros a s [[<- <-]|[? [[<- <-]|[? Ha]]%lookup_insert_Some]]%lookup_insert_Some;
        [lia|lia|]. by eapply HCbnd.
Qed.

Lemma alloc_inv pick sz h r p h' r' :
  lh_inv h r -> region_ok r -> 0 <= sz < 2 ^ 64 ->
  alloc pick sz h r = Ok (p, h', r') ->
  lh_inv h' r' /\ region_ok r' /\ Region.trackedBump r <= Region.trackedBump r'.
Proof.
  intros Hinv Hr Hsz. unfold alloc.
  intros ([[[start e] f1] r1] & Hsel & Hrest)%bind_ok.
  assert (region_ok r1 /\ Region.trackedBump r <= Region.trackedBump r1 /\
          0 < e - start < 2 ^ 64 /\ sz <= e - start /\
          (sz = e - start -> lh_inv (mk f1 (<[start := sz]> (chunkSizes h))) r1) /\
          (sz < e - start ->
             lh_inv (mk f1 (<[start + sz := e - start - sz]>
                              (<[start := sz]> (chunkSizes h)))) r1))
    as (Hr1 & Hmono & Htot & Hle & Hfull & Hpart).
  { destruct h as [f cs]. pose proof Hinv as [HI1 HI2 HI3 HI4 HIpos HIbnd HIsp]. simpl in *.
    destruct (lower_bound sz f) as [[k S]|] eqn:Elb.
    - apply lower_bound_Some in Elb as (Hk & Hkle & _).
      destruct (decide (pick S ∈ S)) as [Hin|]; [|done].
      injection Hsel as <- <- <- <-.
      assert (free_at f (pick S) k) as Hfree by (exists S; done).
      pose proof (HI1 _ _ Hfree) as Hc. pose proof (HIpos _ _ Hc). pose proof (HIbnd _ _ Hc).
      pose proof trackedBase_pos.
      replace (pick S + k - pick S) with k by lia.
      split; [done|]. split; [lia|]. split; [lia|]. split; [lia|].
      apply (carve (erase_free k (pick S) f) cs r (pick S) k sz);
        [ | done | | | by apply buckets_erase | | | lia | lia | lia | lia | lia ].
      + intros a s [Ha Hne]%free_at_erase. split; [by apply HI1|].
        intros ->. apply Hne. split; [done|]. apply HI1 in Ha. congruence.
      + intros b sb Hb Hne. destruct (decide (b < pick S)).
        * left. by eapply HI2.
        * right. eapply (HI2 (pick S) k b sb); auto. lia.
      + intros a sa b sb [Ha _]%free_at_erase [Hb _]%free_at_erase. by eapply HI3.
      + intros a s Ha _. by eapply HIpos.
      + intros a s Ha _. by eapply HIbnd.
    - apply bind_ok in Hsel as ([[s e'] r2] & Hsys & [= <- <- <- <-]).
      apply sysAlloc_spec in Hsys as (-> & -> & Hr2 & Hge & Hrange); [|done].
      split; [done|]. split; [lia|]. split; [lia|]. split; [lia|].
      destruct Hr as (? & ? & ?). destruct Hr2 as (? & ? & ?).
      replace (Region.trackedBump r2 - Region.trackedBump r - sz)
        with ((Region.trackedBump r2 - Region.trackedBump r) - sz) by lia.
      apply (carve f cs r2 (Region.trackedBump r)
               (Region.trackedBump r2 - Region.trackedBump r) sz);
        [ | done | | done | done | | | lia | lia | lia | lia | lia ].
      + intros a s Ha. pose proof (HI1 _ _ Ha) as Hc. split; [done|].
        pose proof (HIpos _ _ Hc). pose proof (HIbnd _ _ Hc). lia.
      + intros b sb Hb _. left. pose proof (HIbnd _ _ Hb). lia.
      + intros a s Ha _. by eapply HIpos.
      + intros a s Ha _. pose proof (HIbnd _ _ Ha). lia. }
  clear Hsel. simpl in Hrest.
  replace (e - (start + sz)) with (e - start - sz) in Hrest by lia.
  rewrite wrap64_small in Hrest by lia.
  destruct (e - start - sz =? 0) eqn:E0.
  - apply Z.eqb_eq in E0. injection Hrest as <- <- <-.
    split_and!; auto. apply Hfull. lia.
  - apply Z.eqb_neq in E0.
    apply bind_ok in Hrest as (h1 & Hd & [= <- <- <-]).
    split_and!; auto. eapply unlocked_dealloc_inv; [|exact Hd]. apply Hpart. lia.
Qed.

Lemma lh_inv_new r : Region.trackedBump r <= 2 ^ 64 -> lh_inv new r.
Proof.
  intros. unfold new. constructor; simpl; auto.
  - intros a s (S & Hl & _). by rewrite lookup_empty in Hl.
  - intros a sa b sb Ha. by rewrite lookup_empty in Ha.
  - intros a sa b sb (S & Hl & _). by rewrite lookup_empty in Hl.
  - intros a s Hl. by rewrite lookup_empty in Hl.
  - intros a s Hl. by rewrite lookup_empty in Hl.
Qed.


End LargeHeapAlloc.

Module ThreadCacheFacts.
Import BlockedDeque Region CentralFacts BulkAllocFacts RegionFacts.

Lemma classToSize_small cl : 0 <= cl < 256 -> classToSize cl = 64 * cl.
Proof.
  intros. unfold classToSize, wrap64. rewrite Z.shiftl_mul_pow2 by lia.
  rewrite Z.mod_small; lia.
Qed.

Lemma get_ok {A} (a : list A) i x :
  get a i = Ok x <-> 0 <= i /\ a !! Z.to_nat i = Some x.
Proof.
  unfold get. destruct (i <? 0) eqn:E.
  - apply Z.ltb_lt in E. split; [done|lia].
  - apply Z.ltb_ge in E. destruct (a !! Z.to_nat i); split; try done.
    + intros [= ->]. done.
    + intros [_ [= ->]]. done.
    + intros [_ ?]. done.
Qed.

Lemma get_safe {A} (a : list A) i : no_deque_failure (get a i).
Proof. unfold get. destruct (i <? 0); [by intros []|]. destruct (a !! _); [done|by intros []]. Qed.

Section Wsum.
Implicit Types (g : Z -> Deque -> Z) (ds : list Deque).

Lemma wsum_le2 g1 g2 k ds ds' :
  length ds = length ds' ->
  (forall j a b, ds !! j = Some a -> ds' !! j = Some b ->
     g1 (k + Z.of_nat j) b <= g2 (k + Z.of_nat j) a) ->
  wsum g1 k ds' <= wsum g2 k ds.
Proof.
  revert k ds'. induction ds as [|d ds IH]; intros k [|d' ds'] Hlen Hpt; simpl in *; try lia.
  assert (g1 k d' <= g2 k d).
  { specialize (Hpt 0%nat d d' eq_refl eq_refl). by rewrite Z.add_0_r in Hpt. }
  assert (wsum g1 (k + 1) ds' <= wsum g2 (k + 1) ds); [|lia].
  apply IH; [lia|]. intros j a b Ha Hb. specialize (Hpt (S j) a b Ha Hb).
  by replace (k + 1 + Z.of_nat j) with (k + Z.of_nat (S j)) by lia.
Qed.

Lemma wsum_ext g1 g2 k ds :
  (forall j a, ds !! j = Some a -> g1 (k + Z.of_nat j) a = g2 (k + Z.of_nat j) a) ->
  wsum g1 k ds = wsum g2 k ds.
Proof.
  intros Hpt. apply Z.le_antisymm; apply wsum_le2; auto.
  - intros j a b Ha Hb. assert (b = a) as -> by congruence. rewrite (Hpt j a); auto. lia.
  - intros j a b Ha Hb. assert (b = a) as -> by congruence. rewrite (Hpt j a); auto. lia.
Qed.

Lemma wsum_update g k ds i d d' :
  ds !! i = Some d ->
  wsum g k (<[i := d']> ds) = wsum g k ds - g (k + Z.of_nat i) d + g (k + Z.of_nat i) d'.
Proof.
  revert k i. induction ds as [|x ds IH]; intros k [|i] Hi; simpl in *; try done.
  - injection Hi as ->. rewrite Z.add_0_r. lia.
  - rewrite (IH (k + 1) i Hi).
    replace (k + 1 + Z.of_nat i) with (k + Z.of_nat (S i)) by lia. lia.
Qed.

Lemma wsum_nonneg g k ds :
  (forall j a, ds !! j = Some a -> 0 <= g (k + Z.of_nat j) a) -> 0 <= wsum g k ds.
Proof.
  revert k. induction ds as [|d ds IH]; intros k Hpt; simpl; [lia|].
  assert (0 <= g k d).
  { specialize (Hpt 0%nat d eq_refl). by rewrite Z.add_0_r in Hpt. }
  assert (0 <= wsum g (k + 1) ds); [|lia].
  apply IH. intros j a Ha. specialize (Hpt (S j) a Ha).
  by replace (k + 1 + Z.of_nat j) with (k + Z.of_nat (S j)) by lia.
Qed.

Lemma wsum_term_le g k ds i d :
  (forall j a, ds !! j = Some a -> 0 <= g (k + Z.of_nat j) a) ->
  ds !! i = Some d -> g (k + Z.of_nat i) d <= wsum g k ds.
Proof.
  intros Hpt Hi.
  pose proof (wsum_update g k ds i d d Hi) as Hu. rewrite list_insert_id in Hu by done.
  assert (0 <= wsum (fun c x => if decide (c = k + Z.of_nat i) then 0 else g c x) k ds) as H0.
  { apply wsum_nonneg. intros j a Ha. case_decide; [lia|]. by apply Hpt. }
  assert (wsum (fun c x => if decide (c = k + Z.of_nat i) then 0 else g c x) k ds
          <= wsum g k ds - g (k + Z.of_nat i) d); [|lia].
  clear Hu H0. revert k i Hpt Hi. induction ds as [|x ds IH]; intros k [|i] Hpt Hi; simpl in *; try done.
  - injection Hi as ->. rewrite Z.add_0_r. rewrite decide_True by done.
    assert (wsum (fun c x => if decide (c = k) then 0 else g c x) (k + 1) ds <= wsum g (k + 1) ds); [|lia].
    apply wsum_le2; [done|]. intros j a b Ha Hb. assert (b = a) as -> by congruence.
    case_decide; [|lia]. specialize (Hpt (S j) a Ha).
    by replace (k + Z.of_nat (S j)) with (k + 1 + Z.of_nat j) in Hpt by lia.
  - rewrite decide_False by lia.
    replace (k + Z.of_nat (S i)) with (k + 1 + Z.of_nat i) by lia.
    assert (wsum (fun c x => if decide (c = k + 1 + Z.of_nat i) then 0 else g c x) (k + 1) ds
            <= wsum g (k + 1) ds - g (k + 1 + Z.of_nat i) d); [|lia].
    apply IH; [|done]. intros j a Ha. specialize (Hpt (S j) a Ha).
    by replace (k + Z.of_nat (S j)) with (k + 1 + Z.of_nat j) in Hpt by lia.
Qed.

Lemma wsum_bound g k ds M :
  (forall j a, ds !! j = Some a -> g (k + Z.of_nat j) a <= M) ->
  wsum g k ds <= Z.of_nat (length ds) * M.
Proof.
  revert k. induction ds as [|d ds IH]; intros k Hpt; simpl length; simpl wsum; [lia|].
  assert (g k d <= M).
  { specialize (Hpt 0%nat d eq_refl). by rewrite Z.add_0_r in Hpt. }
  assert (wsum g (k + 1) ds <= Z.of_nat (length ds) * M); [|lia].
  apply IH. intros j a Ha. specialize (Hpt (S j) a Ha).
  by replace (k + 1 + Z.of_nat j) with (k + Z.of_nat (S j)) by lia.
Qed.

End Wsum.

End ThreadCacheFacts.

Module ThreadCacheInv.
Import BlockedDeque Region CentralFacts BulkAllocFacts RegionFacts ThreadCacheFacts.

Lemma wsum_le_slack g1 g2 k (ds : list Deque) M :
  (forall j a, ds !! j = Some a -> g1 (k + Z.of_nat j) a <= g2 (k + Z.of_nat j) a + M) ->
  wsum g1 k ds <= wsum g2 k ds + Z.of_nat (length ds) * M.
Proof.
  revert k. induction ds as [|d ds IH]; intros k Hpt; simpl length; simpl wsum; [lia|].
  assert (g1 k d <= g2 k d + M).
  { specialize (Hpt 0%nat d eq_refl). by rewrite Z.add_0_r in Hpt. }
  assert (wsum g1 (k + 1) ds <= wsum g2 (k + 1) ds + Z.of_nat (length ds) * M); [|lia].
  apply IH. intros j a Ha. specialize (Hpt (S j) a Ha).
  by replace (k + 1 + Z.of_nat j) with (k + Z.of_nat (S j)) by lia.
Qed.

Section Classes.
Variable ds : list Deque.
Hypothesis Hlen : length ds = Z.to_nat kMaxClasses.
Hypothesis Hwf : Forall wfa ds.

Lemma class_of_index j d :
  ds !! j = Some d -> 0 <= Z.of_nat j < 256 /\ wfa d /\ 0 <= count d /\
  classToSize (0 + Z.of_nat j) = 64 * Z.of_nat j.
Proof.
  intros Hj. pose proof (lookup_lt_Some _ _ _ Hj) as Hlt. rewrite Hlen in Hlt.
  unfold kMaxClasses in Hlt.
  assert (wfa d) as Hd by (eapply Forall_lookup_1; eauto).
  split; [lia|]. split; [done|]. split; [by apply wfa_count_nonneg|].
  rewrite Z.add_0_l. apply classToSize_small. lia.
Qed.

Lemma held_nonneg j d : ds !! j = Some d -> 0 <= held (0 + Z.of_nat j) d.
Proof. intros (? & ? & ? & E)%class_of_index. unfold held. rewrite E. nia. Qed.

Lemma excess_nonneg lim j d : ds !! j = Some d -> 0 <= excess lim (0 + Z.of_nat j) d.
Proof. intros (? & ? & ? & E)%class_of_index. unfold excess. rewrite E. nia. Qed.

Lemma excess_le_held j d :
  ds !! j = Some d -> excess 32 (0 + Z.of_nat j) d <= held (0 + Z.of_nat j) d.
Proof. intros (? & ? & ? & E)%class_of_index. unfold excess, held. rewrite E. nia. Qed.

Lemma held_le_excess j d :
  ds !! j = Some d -> held (0 + Z.of_nat j) d <= excess 32 (0 + Z.of_nat j) d + 522240.
Proof. intros (? & ? & ? & E)%class_of_index. unfold excess, held. rewrite E. nia. Qed.

Lemma held_total_bound : wsum held 0 ds <= wsum (excess 32) 0 ds + 133693440.
Proof.
  pose proof (wsum_le_slack held (excess 32) 0 ds 522240) as Hb.
  rewrite Hlen in Hb. unfold kMaxClasses in Hb.
  change (Z.of_nat (Z.to_nat 256) * 522240) with 133693440 in Hb.
  apply Hb. intros j a Ha. by apply held_le_excess.
Qed.

Lemma held_class_le j d : ds !! j = Some d -> held (0 + Z.of_nat j) d <= wsum held 0 ds.
Proof. intros Hj. apply wsum_term_le; [|done]. intros ???. by apply held_nonneg. Qed.

(** A list of a class other than 0 holds as many elements as [size()] says,
    once the bytes held fit a machine word. *)
Lemma size_exact j d :
  ds !! j = Some d -> wsum held 0 ds < 2 ^ 64 ->
  (j <> 0%nat -> size d = count d) /\ bytes_of (0 + Z.of_nat j) d = held (0 + Z.of_nat j) d.
Proof.
  intros Hj Hb. pose proof (held_class_le _ _ Hj) as Hle.
  pose proof (class_of_index _ _ Hj) as (? & Hd & ? & E).
  unfold held, bytes_of in *. rewrite E in *. rewrite (size_count _ Hd).
  destruct (decide (j = 0%nat)) as [->|Hne].
  - split; [done|]. simpl. lia.
  - assert (count d < 2 ^ 64) by nia.
    rewrite wrap64_small by lia. done.
Qed.

End Classes.

Lemma tc_ok_bounds tc :
  tc_ok tc -> 0 <= ThreadCache.cacheSize tc <= 137887744.
Proof.
  intros (Hlen & Hwf & Hc & Hex). rewrite Hc. split.
  - apply wsum_nonneg. intros ???. by eapply held_nonneg.
  - pose proof (held_total_bound _ Hlen Hwf). unfold kMaxThreadCacheSize in Hex. lia.
Qed.

(** The claim of the byte counter, from the invariant. *)
Lemma tc_ok_bytes tc :
  tc_ok tc -> ThreadCache.cacheSize tc = wsum bytes_of 0 (ThreadCache.classLists tc).
Proof.
  intros Hok. pose proof (tc_ok_bounds _ Hok) as Hb. destruct Hok as (Hlen & Hwf & Hc & Hex).
  rewrite Hc. symmetry. apply wsum_ext. intros j a Ha.
  eapply size_exact; eauto. lia.
Qed.

End ThreadCacheInv.

Module ThreadCacheOps.
Import BlockedDeque Region CentralFacts BulkAllocFacts RegionFacts ThreadCacheFacts ThreadCacheInv.

Lemma class_lookup {A} (a : list A) i :
  length a = Z.to_nat kMaxClasses -> 0 <= i < 256 ->
  exists x, get a i = Ok x /\ a !! Z.to_nat i = Some x.
Proof.
  intros Hlen Hi. destruct (lookup_lt_is_Some_2 a (Z.to_nat i)) as [x Hx].
  { rewrite Hlen. unfold kMaxClasses. lia. }
  exists x. split; [|done]. apply get_ok. split; [lia|done].
Qed.

Lemma donate_arith c :
  1 <= c ->
  0 <= (c + 1) / 2 <= c /\
  (32 <= (c + 1) / 2 -> forall nb, c <= 32 * nb -> (c + 1) / 2 / 32 < nb) /\
  Z.max 0 (c - moved ((c + 1) / 2) - 32) <= Z.max 0 (c - 33).
Proof.
  intros Hc. split; [Z.div_mod_to_equations; lia|]. split.
  - intros He nb Hnb. Z.div_mod_to_equations. lia.
  - unfold moved. destruct (_ <? 32) eqn:E.
    + apply Z.ltb_lt in E. Z.div_mod_to_equations. lia.
    + apply Z.ltb_ge in E. Z.div_mod_to_equations. lia.
Qed.

Lemma donate_class_ok i tc central :
  1 <= i < 256 -> tc_loop tc -> central_all_ok central ->
  exists tc' central' d d',
    ThreadCache.donate_class i tc central = Ok (tc', central') /\
    tc_loop tc' /\ central_all_ok central' /\
    ThreadCache.cacheSize tc' <= ThreadCache.cacheSize tc /\
    ThreadCache.classLists tc !! Z.to_nat i = Some d /\
    ThreadCache.classLists tc' = <[Z.to_nat i := d']> (ThreadCache.classLists tc) /\
    excess 32 i d' <= excess 33 i d.
Proof.
  intros Hi (Hlen & Hwf & Hc & Hb) (Hclen & Hcok).
  destruct tc as [csz ds]. simpl in *.
  destruct (class_lookup ds i Hlen) as (d & Hget & Hd); [lia|].
  destruct (class_lookup central i Hclen) as (c & Hcget & Hcd); [lia|].
  pose proof (class_of_index ds Hlen Hwf _ _ Hd) as (_ & Hwd & Hcnt & Hcts).
  pose proof (held_class_le ds Hlen Hwf _ _ Hd) as Hheld.
  rewrite Z.add_0_l, Z2Nat.id in * by lia. unfold held at 1 in Hheld. rewrite Hcts in *.
  assert (count d < 2 ^ 32) as Hsmall by nia.
  assert (size d = count d) as Hsz by (rewrite (size_count _ Hwd); apply wrap64_small; lia).
  unfold ThreadCache.donate_class. simpl. rewrite Hget. simpl. rewrite Hsz.
  destruct (count d =? 0) eqn:E0.
  - apply Z.eqb_eq in E0. exists (ThreadCache.mk csz ds), central, d, d.
    rewrite list_insert_id by done. split_and!; auto; try done; try lia.
    unfold excess. rewrite E0. simpl. lia.
  - apply Z.eqb_neq in E0. rewrite Hcget. simpl.
    rewrite (wrap64_small (count d + 1)) by lia.
    destruct (donate_arith (count d)) as (He & Hblk & Hex); [lia|].
    assert (central_ok c) as (Hwc & Hcs & Hepf) by (eapply Forall_lookup_1; eauto).
    destruct (bulkDealloc_ok d ((count d + 1) / 2) c) as
      (d' & c' & -> & Hwd' & Hwc' & Hcd' & _ & Hcs' & Hepf' & _); auto.
    { intros H32. apply Hblk; [done|]. destruct (count_bounds _ Hwd); lia. }
    simpl. pose proof (moved_le ((count d + 1) / 2)) as Hm.
    pose proof (wfa_count_nonneg _ Hwd').
    assert (size d' = count d') as -> by (rewrite (size_count _ Hwd'); apply wrap64_small; lia).
    rewrite Hcd'. replace (count d - (count d - moved ((count d + 1) / 2)))
      with (moved ((count d + 1) / 2)) by lia.
    rewrite (wrap64_small (moved _)) by lia.
    rewrite (wrap64_small (moved _ * _)) by nia.
    rewrite (wrap64_small (csz - _)) by nia.
    eexists _, _, d, d'. split; [reflexivity|]. unfold set. simpl.
    split_and!; auto.
    + split_and!; simpl.
      * by rewrite length_insert.
      * by apply Forall_insert.
      * rewrite (wsum_update _ _ _ _ d) by done.
        rewrite Z.add_0_l, Z2Nat.id by lia. rewrite Hc. set (W := wsum held 0 ds).
        unfold held. rewrite Hcts, Hcd'. ring.
      * nia.
    + split; [by rewrite length_insert|]. apply Forall_insert; [done|].
      unfold central_ok. rewrite Hcs', Hepf'. done.
    + nia.
    + unfold excess. rewrite Hcts, Hcd'. nia.
Qed.

Lemma donate_ok n i tc central :
  i + Z.of_nat n = 256 -> 1 <= i -> tc_loop tc -> central_all_ok central ->
  exists tc' central',
    ThreadCache.donate (seqZ i (Z.of_nat n)) tc central = Ok (tc', central') /\
    tc_loop tc' /\ central_all_ok central' /\
    ThreadCache.cacheSize tc' <= ThreadCache.cacheSize tc /\
    wsum (excess 32) 0 (ThreadCache.classLists tc')
      <= wsum (mix i) 0 (ThreadCache.classLists tc).
Proof.
  revert i tc central. induction n as [|n IH]; intros i tc central Hin Hi Hloop Hcen.
  - exists tc, central. simpl. split_and!; auto; try lia.
    destruct Hloop as (Hlen & _). apply wsum_le2; [done|].
    intros j a b Ha Hb. assert (b = a) as -> by congruence.
    pose proof (lookup_lt_Some _ _ _ Ha) as Hlt. rewrite Hlen in Hlt. unfold kMaxClasses in Hlt.
    unfold mix. assert ((0 + Z.of_nat j <? i) = true) as -> by lia. lia.
  - rewrite seqZ_cons by lia. simpl.
    destruct (donate_class_ok i tc central) as
      (tc1 & central1 & d & d' & -> & Hloop1 & Hcen1 & Hle1 & Hd & Hds1 & Hex); auto; [lia|].
    simpl. replace (Z.pred (Z.of_nat (S n))) with (Z.of_nat n) by lia.
    replace (Z.succ i) with (i + 1) by lia.
    destruct (IH (i + 1) tc1 central1) as (tc' & central' & -> & ? & ? & ? & Hw); auto; try lia.
    exists tc', central'. split_and!; auto; try lia.
    etrans; [exact Hw|]. rewrite Hds1. apply wsum_le2; [by rewrite length_insert|].
    intros j a b Ha Hb. unfold mix.
    destruct (decide (j = Z.to_nat i)) as [->|Hne].
    + rewrite list_lookup_insert_eq in Hb by (by eapply lookup_lt_Some).
      injection Hb as <-. assert (a = d) as -> by congruence.
      rewrite Z.add_0_l, Z2Nat.id by lia.
      assert ((i <? i + 1) = true) as -> by lia. assert ((i <? i) = false) as -> by lia. done.
    + rewrite list_lookup_insert_ne in Hb by done. assert (b = a) as -> by congruence.
      destruct (0 + Z.of_nat j <? i) eqn:E1.
      * assert ((0 + Z.of_nat j <? i + 1) = true) as -> by lia. lia.
      * assert ((0 + Z.of_nat j <? i + 1) = false) as -> by lia. lia.
Qed.

Lemma dealloc_ok p cl tc central :
  0 <= cl < 256 -> tc_ok tc -> central_all_ok central ->
  exists tc' central',
    ThreadCache.dealloc p cl tc central = Ok (tc', central') /\
    tc_ok tc' /\ central_all_ok central'.
Proof.
  intros Hcl Hok Hcen. pose proof (tc_ok_bounds _ Hok) as Hbnd.
  destruct Hok as (Hlen & Hwf & Hc & Hex). destruct tc as [csz ds]. simpl in *.
  destruct (class_lookup ds cl Hlen) as (d & Hget & Hd); [lia|].
  pose proof (class_of_index ds Hlen Hwf _ _ Hd) as (_ & Hwd & Hcnt & Hcts).
  rewrite Z.add_0_l, Z2Nat.id in Hcts by lia.
  unfold ThreadCache.dealloc. cbn [ThreadCache.classLists ThreadCache.cacheSize].
  rewrite Hget, bind_Ok.
  destruct (push_back_ok p d Hwd) as (d1 & -> & Hwd1 & Hc1 & _). rewrite bind_Ok.
  rewrite Hcts. rewrite (wrap64_small (csz + _)) by lia. cbv zeta.
  set (tc1 := ThreadCache.mk _ _).
  assert (tc_loop tc1) as Hloop1.
  { split_and!; simpl.
    - unfold set. by rewrite length_insert.
    - by apply Forall_insert.
    - unfold set. rewrite (wsum_update _ _ _ _ d) by done.
      rewrite Z.add_0_l, Z2Nat.id by lia. rewrite Hc. set (W := wsum held 0 ds).
      unfold held. rewrite Hcts, Hc1. ring.
    - lia. }
  assert (wsum (mix 1) 0 (ThreadCache.classLists tc1) <= wsum (excess 32) 0 ds) as Hmix.
  { simpl. apply wsum_le2; [unfold set; by rewrite length_insert|].
    intros j a b Ha Hb. unfold mix.
    pose proof (class_of_index ds Hlen Hwf _ _ Ha) as (? & ? & ? & Hctsj).
    unfold set in Hb. destruct (decide (j = Z.to_nat cl)) as [->|Hne].
    - rewrite list_lookup_insert_eq in Hb by (by eapply lookup_lt_Some).
      injection Hb as <-. assert (a = d) as -> by congruence.
      unfold excess. rewrite Hctsj, Hc1.
      replace (count d + 1 - 33) with (count d - 32) by lia.
      destruct (_ <? 1) eqn:E1; [apply Z.ltb_lt in E1|]; [|lia].
      assert (Z.of_nat (Z.to_nat cl) = 0) as -> by lia. lia.
    - rewrite list_lookup_insert_ne in Hb by done. assert (b = a) as -> by congruence.
      unfold excess. rewrite Hctsj. destruct (_ <? 1); [lia|].
      apply Z.mul_le_mono_nonneg_r; lia. }
  change (csz + 64 * cl) with (ThreadCache.cacheSize tc1) at 1.
  destruct (kMaxThreadCacheSize <? ThreadCache.cacheSize tc1) eqn:E.
  - destruct (donate_ok 255%nat 1 tc1 central) as (tc' & central' & Hdon & Hloop' & ? & ? & Hw);
      auto; try lia.
    exists tc', central'. split; [exact Hdon|]. split; [|done].
    destruct Hloop' as (? & ? & ? & ?). unfold tc_ok. split_and!; auto. lia.
  - apply Z.ltb_ge in E. exists tc1, central. split; [done|]. split; [|done].
    destruct Hloop1 as (Hl1 & Hw1 & Hc1' & _). unfold tc_ok. split_and!; auto.
    etrans; [|exact E]. rewrite Hc1'. apply wsum_le2; [done|].
    intros j a b Ha Hb. assert (b = a) as -> by congruence.
    by eapply excess_le_held.
Qed.

Lemma dequeue_back_safe (d : Deque) : wfa d -> no_deque_failure (dequeue_back d).
Proof.
  intros Hw. destruct (decide (blocks d = [])) as [E|E].
  - unfold dequeue_back, read_tail. simpl. rewrite E. simpl. by intros [].
  - by destruct (dequeue_back_ok d Hw E) as (? & ? & -> & _).
Qed.

Lemma alloc_spec cl tc central r :
  tc_ok tc -> central_all_ok central -> region_ok r ->
  no_deque_failure (ThreadCache.alloc cl tc central r) /\
  forall p tc' central' r',
    ThreadCache.alloc cl tc central r = Ok (p, tc', central', r') ->
    tc_ok tc' /\ central_all_ok central' /\ region_ok r' /\
    trackedBump r <= trackedBump r'.
Proof.
  intros Hok (Hclen & Hcok) Hr. pose proof (tc_ok_bounds _ Hok) as Hbnd.
  destruct Hok as (Hlen & Hwf & Hc & Hex). destruct tc as [csz ds]. simpl in *.
  unfold ThreadCache.alloc. simpl.
  pose proof (get_safe ds cl) as Hgs.
  destruct (get ds cl) as [d|] eqn:Hget; [|done]. simpl. clear Hgs.
  apply get_ok in Hget as [Hcl0 Hd].
  pose proof (class_of_index ds Hlen Hwf _ _ Hd) as (Hcl & Hwd & Hcnt & Hcts).
  pose proof (held_class_le ds Hlen Hwf _ _ Hd) as Hheld.
  rewrite Z.add_0_l, Z2Nat.id in * by lia. unfold held at 1 in Hheld. rewrite Hcts in *.
  (* the refill *)
  set (refill := if empty d then _ else _).
  assert (no_deque_failure refill /\
          forall d1 csz1 central1 r1, refill = Ok (d1, csz1, central1, r1) ->
            wfa d1 /\ central_all_ok central1 /\ region_ok r1 /\
            trackedBump r <= trackedBump r1 /\
            csz1 = csz - count d * (64 * cl) + count d1 * (64 * cl) /\
            (count d1 <= 32 \/ d1 = d)) as [Hsafe Hspec].
  { unfold refill. unfold empty. destruct (blocks d) eqn:Eb.
    - pose proof (get_safe central cl) as Hgs.
      destruct (get central cl) as [c|] eqn:Hcget; [|done]. simpl. clear Hgs.
      apply get_ok in Hcget as [_ Hcd].
      assert (central_ok c) as Hc_ok by (eapply Forall_lookup_1; eauto).
      destruct (bulkAlloc_spec d c r Hc_ok Hwd Hr) as [Hbs Hbspec].
      destruct (CentralFreeList.bulkAlloc d c r) as [[[d1 c1] r1]|]; [|done]. simpl.
      split; [done|]. intros ???? [= <- <- <- <-].
      destruct (Hbspec _ _ _ eq_refl) as (Hwd1 & Hc1 & Hr1 & Hmono & _ & _ & Hcount).
      rewrite (wfa_empty_count _ Hwd Eb) in *.
      destruct Hc_ok as (_ & _ & Hepf).
      pose proof (wfa_count_nonneg _ Hwd1).
      rewrite (size_count _ Hwd1), (wrap64_small (count d1)) by lia.
      rewrite (wrap64_small (_ * _)) by nia. rewrite (wrap64_small (csz + _)) by nia.
      split_and!; auto; try lia.
      split; [unfold set; by rewrite length_insert|]. by apply Forall_insert.
    - split; [done|]. intros ???? [= <- <- <- <-]. split_and!; auto; try lia. done. }
  destruct refill as [[[[d1 csz1] central1] r1]|]; [|done]. simpl.
  destruct (Hspec _ _ _ _ eq_refl) as (Hwd1 & Hcen1 & Hr1 & Hmono & Hcsz1 & Hcase).
  clear Hsafe Hspec.
  pose proof (dequeue_back_safe d1 Hwd1) as Hds.
  destruct (dequeue_back d1) as [[res d2]|] eqn:Edq; [|done]. simpl.
  split; [done|]. intros ???? [= <- <- <- <-].
  assert (blocks d1 <> []) as Hne1.
  { intros E. unfold dequeue_back, read_tail in Edq. simpl in Edq. by rewrite E in Edq. }
  destruct (dequeue_back_ok d1 Hwd1 Hne1) as (res' & d2' & Edq' & Hwd2 & Hc2 & _).
  rewrite Edq in Edq'. injection Edq' as <- <-.
  pose proof (wfa_count_pos _ Hwd1 Hne1). pose proof (wfa_count_nonneg _ Hwd2).
  rewrite (wrap64_small (csz1 - _)) by (destruct Hcase as [?| ->]; nia).
  split_and!; auto.
  split_and!; simpl.
  - unfold set. by rewrite length_insert.
  - by apply Forall_insert.
  - unfold set. rewrite (wsum_update _ _ _ _ d) by done.
    rewrite Z.add_0_l, Z2Nat.id by lia. rewrite Hcsz1, Hc. set (W := wsum held 0 ds).
    unfold held. rewrite Hcts, Hc2. ring.
  - etrans; [|exact Hex]. apply wsum_le2; [unfold set; by rewrite length_insert|].
    intros j a b Ha Hb.
    pose proof (class_of_index ds Hlen Hwf _ _ Ha) as (? & ? & ? & Hctsj).
    unfold set in Hb. destruct (decide (j = Z.to_nat cl)) as [->|Hne].
    + rewrite list_lookup_insert_eq in Hb by (by eapply lookup_lt_Some).
      injection Hb as <-. assert (a = d) as -> by congruence.
      unfold excess. rewrite Hctsj, Hc2. destruct Hcase as [?| ->]; nia.
    + rewrite list_lookup_insert_ne in Hb by done. assert (b = a) as -> by congruence. lia.
Qed.

End ThreadCacheOps.

Module SystemFacts.
Import Alloc System Region.
Import ThreadCacheFacts ThreadCacheInv ThreadCacheOps LargeHeapInv LargeHeapAlloc.

Lemma initElemsPerFetch_range cl : 2 <= initElemsPerFetch cl <= 32.
Proof.
  unfold initElemsPerFetch, wrap32, BlockedDeque.DQBLOCK_SIZE.
  rewrite (Z.mod_small 32) by lia. lia.
Qed.

Lemma central_ok_new cs epf : 0 <= epf <= 32 -> central_ok (CentralFreeList.new cs epf).
Proof.
  intros. unfold central_ok, CentralFreeList.new, wrap32. simpl.
  split; [apply wfa_init|]. rewrite (Z.mod_small epf) by lia.
  split; [|lia]. apply Z.mod_pos_bound. lia.
Qed.

Lemma tc_ok_new : tc_ok ThreadCache.new.
Proof.
  unfold tc_ok, ThreadCache.new. cbn [ThreadCache.classLists ThreadCache.cacheSize].
  split; [apply length_replicate|]. split; [apply Forall_replicate, wfa_init|].
  split; [by vm_compute|]. by vm_compute.
Qed.

Lemma init_ok sz gs : __plsalloc_init sz None = Ok gs -> gs_ok gs.
Proof.
  unfold __plsalloc_init. destruct (mmap _ _); cbn [negb]; [|done]. intros [= <-].
  unfold gs_ok. cbn [classLists threadCaches largeHeap region]. split_and!.
  - split.
    + unfold initClassLists. cbn [length]. rewrite length_fmap, length_seqZ. done.
    + unfold initClassLists. constructor.
      * unfold central_ok, zeroCentralFreeList. cbn. split; [apply wfa_init|lia].
      * apply Forall_fmap, Forall_forall. intros cl _.
        apply central_ok_new. pose proof (initElemsPerFetch_range cl). lia.
  - apply length_replicate.
  - apply Forall_replicate, tc_ok_new.
  - apply lh_inv_new. cbn [trackedBump]. by vm_compute.
  - unfold region_ok. cbn [trackedBump trackedEnd]. split_and!; [lia|lia|by vm_compute].
Qed.

Lemma step_ok gs gs' : gs_ok gs -> step gs gs' -> gs_ok gs'.
Proof.
  intros (Hcen & Hlen & Htcs & Hlh & Hr) Hstep.
  destruct Hstep as [gs tid cl tc p tc' central' r' Hget Halloc
                    |gs tid p cl tc tc' central' Hget Hdealloc
                    |gs pick sz p h' r' Hsz Halloc
                    |gs p h' Hdealloc].
  - apply get_ok in Hget as [_ Htc].
    assert (tc_ok tc) as Htc_ok by (eapply Forall_lookup_1; eauto).
    destruct (alloc_spec cl tc _ _ Htc_ok Hcen Hr) as [_ Hspec].
    destruct (Hspec _ _ _ _ Halloc) as (? & ? & Hr' & Hmono).
    unfold gs_ok, set. simpl. split_and!; auto.
    + by rewrite length_insert.
    + by apply Forall_insert.
    + eapply lh_inv_mono; eauto. by destruct Hr' as (_ & ? & ?); lia.
  - apply get_ok in Hget as [_ Htc].
    assert (tc_ok tc) as Htc_ok by (eapply Forall_lookup_1; eauto).
    assert (0 <= cl < 256) as Hcl.
    { unfold ThreadCache.dealloc in Hdealloc. apply bind_ok in Hdealloc as (d & Hd & _).
      apply get_ok in Hd as [? Hd%lookup_lt_Some]. destruct Htc_ok as (Hl & _).
      rewrite Hl in Hd. unfold kMaxClasses in Hd. lia. }
    destruct (dealloc_ok p cl tc _ Hcl Htc_ok Hcen) as (tc2 & central2 & E & ? & ?).
    rewrite E in Hdealloc. injection Hdealloc as <- <-.
    unfold gs_ok, set. simpl. split_and!; auto.
    + by rewrite length_insert.
    + by apply Forall_insert.
  - destruct (alloc_inv _ _ _ _ _ _ _ Hlh Hr Hsz Halloc) as (? & ? & ?).
    unfold gs_ok. simpl. split_and!; auto.
  - unfold gs_ok. simpl. split_and!; auto.
    eapply unlocked_dealloc_inv; eauto.
Qed.

Lemma reachable_ok sz gs : reachable sz gs -> gs_ok gs.
Proof.
  induction 1 as [gs Hinit|gs gs' _ IH Hstep].
  - by eapply init_ok.
  - by eapply step_ok.
Qed.

End SystemFacts.

Module FacadeFacts.
Import Alloc System Region SystemFacts.
Import ThreadCacheFacts ThreadCacheInv ThreadCacheOps LargeHeapInv LargeHeapAlloc RegionFacts.

Lemma land_range a b : 0 <= a < 2 ^ 64 -> 0 <= b -> 0 <= Z.land a b < 2 ^ 64.
Proof.
  intros Ha Hb. assert (0 <= Z.land a b) as H0 by (apply Z.land_nonneg; lia).
  split; [done|]. destruct (decide (Z.land a b = 0)) as [->|Hne]; [lia|].
  apply Z.log2_lt_pow2; [lia|].
  pose proof (Z.log2_land a b) as Hl.
  assert (0 < a) as Hpos.
  { destruct (decide (a = 0)) as [->|]; [|lia]. by rewrite Z.land_0_l in Hne. }
  assert (Z.log2 a < 64) by (apply Z.log2_lt_pow2; lia). lia.
Qed.

Lemma round_up_range chunkSize :
  0 <= Z.land (wrap64 (chunkSize + 63)) (wrap64 (Z.lnot 63)) < 2 ^ 64.
Proof.
  apply land_range; [apply Z.mod_pos_bound; lia|]. by vm_compute.
Qed.

Lemma do_alloc_step sz tid pick n gs p gs' :
  do_alloc sz tid pick n (Some gs) = Ok (p, gs') -> step gs gs'.
Proof.
  unfold do_alloc. cbn [__plsalloc_init]. rewrite bind_Ok. destruct (negb (isLargeAlloc n)).
  - intros (tc & Hget & ([[[res tc'] central'] r'] & Halloc & [= <- <-])%bind_ok)%bind_ok.
    by eapply step_tc_alloc.
  - intros ([[res h'] r'] & Halloc & [= <- <-])%bind_ok.
    eapply step_lh_alloc; [|exact Halloc]. apply round_up_range.
Qed.

Lemma do_dealloc_step tid p gs gs' :
  do_dealloc tid p gs = Ok gs' -> gs' = gs \/ step gs gs'.
Proof.
  unfold do_dealloc. destruct (p =? 0); [intros [= <-]; by left|].
  destruct (negb _).
  - intros (tc & Hget & ([tc' central'] & Hd & [= <-])%bind_ok)%bind_ok.
    right. by eapply step_tc_dealloc.
  - intros (h' & Hd & [= <-])%bind_ok. right. by eapply step_lh_dealloc.
Qed.

Lemma do_alloc_reachable sz tid pick n g p gs' :
  (forall gs, g = Some gs -> reachable sz gs) ->
  do_alloc sz tid pick n g = Ok (p, gs') -> reachable sz gs'.
Proof.
  intros Hg Hd. destruct g as [gs|].
  - eapply reach_step; [by apply Hg|]. by eapply do_alloc_step.
  - unfold do_alloc in Hd. apply bind_ok in Hd as (gs0 & Hinit & Hd).
    eapply reach_step; [by apply reach_init|].
    apply (do_alloc_step sz tid pick n gs0 p gs'). unfold do_alloc. cbn [__plsalloc_init]. by rewrite bind_Ok.
Qed.

Lemma do_dealloc_reachable sz tid p gs gs' :
  reachable sz gs -> do_dealloc tid p gs = Ok gs' -> reachable sz gs'.
Proof.
  intros Hr [->|Hs]%do_dealloc_step; [done|]. by eapply reach_step.
Qed.

Lemma unlocked_dealloc_safe p h : no_deque_failure (LargeHeap.unlocked_dealloc p h).
Proof.
  unfold LargeHeap.unlocked_dealloc. destruct (_ !! p); [|by intros []].
  destruct (LargeHeap.merge_prev _ _ _ _) as [[[? ?] ?] ?].
  by destruct (LargeHeap.merge_next _ _ _ _) as [[? ?] ?].
Qed.

Lemma lh_alloc_safe pick sz h r : no_deque_failure (LargeHeap.alloc pick sz h r).
Proof.
  unfold LargeHeap.alloc. apply no_deque_failure_bind.
  - destruct (LargeHeap.lower_bound _ _) as [[k S]|].
    + destruct (decide _); [done|by intros []].
    + apply no_deque_failure_bind; [apply sysAlloc_safe|]. by intros [[? ?] ?] _.
  - intros [[[start e] f] r1] _. cbv zeta. destruct (_ =? 0); [done|].
    apply no_deque_failure_bind; [apply unlocked_dealloc_safe|]. done.
Qed.

Lemma tc_dealloc_safe p cl tc central :
  tc_ok tc -> central_all_ok central ->
  no_deque_failure (ThreadCache.dealloc p cl tc central).
Proof.
  intros Htc Hcen. destruct (decide (0 <= cl < 256)) as [Hcl|Hcl].
  - by destruct (dealloc_ok p cl tc central Hcl Htc Hcen) as (? & ? & -> & _).
  - unfold ThreadCache.dealloc. pose proof (get_safe (ThreadCache.classLists tc) cl) as Hs.
    destruct (get _ cl) as [d|] eqn:E; [|done].
    apply get_ok in E as [? E%lookup_lt_Some]. destruct Htc as (Hl & _).
    rewrite Hl in E. unfold kMaxClasses in E. lia.
Qed.

Lemma do_alloc_safe sz tid pick n gs :
  gs_ok gs -> no_deque_failure (do_alloc sz tid pick n (Some gs)).
Proof.
  intros (Hcen & Hlen & Htcs & Hlh & Hr). unfold do_alloc. cbn [__plsalloc_init]. rewrite bind_Ok.
  destruct (negb _).
  - apply no_deque_failure_bind; [apply get_safe|]. intros tc [_ Htc]%get_ok.
    assert (tc_ok tc) as Htc_ok by (eapply Forall_lookup_1; eauto).
    apply no_deque_failure_bind; [by apply alloc_spec|]. by intros [[[? ?] ?] ?] _.
  - apply no_deque_failure_bind; [apply lh_alloc_safe|]. by intros [[? ?] ?] _.
Qed.

Lemma do_dealloc_safe tid p gs : gs_ok gs -> no_deque_failure (do_dealloc tid p gs).
Proof.
  intros (Hcen & Hlen & Htcs & Hlh & Hr). unfold do_dealloc.
  destruct (p =? 0); [done|]. destruct (negb _).
  - apply no_deque_failure_bind; [apply get_safe|]. intros tc [_ Htc]%get_ok.
    assert (tc_ok tc) as Htc_ok by (eapply Forall_lookup_1; eauto).
    apply no_deque_failure_bind; [by apply tc_dealloc_safe|]. by intros [? ?] _.
  - apply no_deque_failure_bind; [apply unlocked_dealloc_safe|]. done.
Qed.

End FacadeFacts.

Module ExampleFacts.
Import Alloc Region System SystemFacts Examples FacadeFacts.

Lemma init_state0 : __plsalloc_init sizeofAllocState0 None = Ok state0.
Proof. reflexivity. Qed.

Lemma reachable_state0 : reachable sizeofAllocState0 state0.
Proof. apply reach_init, init_state0. Qed.





Lemma small1_eq :
  ThreadCache.alloc 2 ThreadCache.new (classLists state0) (region state0) = Ok small1.
Proof. by vm_compute. Qed.

Lemma reachable_stateT1 : reachable sizeofAllocState0 stateT1.
Proof.
  eapply reach_step; [apply reachable_state0|].
  eapply (step_tc_alloc state0 0 2 ThreadCache.new small1.1.1.1 small1.1.1.2 small1.1.2 small1.2).
  - reflexivity.
  - rewrite small1_eq. by destruct small1 as [[[? ?] ?] ?].
Qed.

End ExampleFacts.

Module Claims.
Import Alloc Region System SystemFacts Examples ExampleFacts FacadeFacts.
Import BlockedDeque CentralFacts ThreadCacheFacts ThreadCacheInv ThreadCacheOps.
Import LargeHeapInv LargeHeapAlloc RegionFacts CentralSeq.

Lemma wfa_src64 : wfa src64.
Proof.
  apply wfa_char. unfold src64, nblocks. simpl. split_and!; try done.
  repeat constructor.
Qed.

(** *** C1 *)

(** C1, as stated, fails: on a source deque of 64 elements in two blocks,
    which meets the preconditions of [splice_front] and [merge_front] for
    [n = 33], [bulkDealloc(src, 33)] moves 32 elements, not 33. *)
Lemma C1_bulkDealloc_33_moves_32 :
  wfa src64 /\ 33 <= size src64 /\ 33 / 32 < nblocks src64 /\
  exists src' c',
    CentralFreeList.bulkDealloc src64 33 (CentralFreeList.new 64 32) = Ok (src', c') /\
    size src' = 32 /\ size src' <> size src64 - 33 /\
    size (CentralFreeList.freeChunks c') = 32 /\
    size (CentralFreeList.freeChunks c')
      <> size (CentralFreeList.freeChunks (CentralFreeList.new 64 32)) + 33.
Proof.
  split; [apply wfa_src64|]. split; [by vm_compute|]. split; [by vm_compute|].
  eexists _, _. split; [by vm_compute|]. by vm_compute.
Qed.

(** C1, amended: for a well-formed source deque and recycled deque with
    block-aligned heads, [n <= src.size()] and, when [n >= 32], more blocks
    in [src] than the [n / 32] spliced, [bulkDealloc(src, n)] returns and
    moves [n] elements when [n < 32] and the [32 * (n / 32)] elements of
    [n / 32] whole blocks otherwise: [src.size()] shrinks and
    [freeChunks.size()] grows by that number. The elements [mv] moved are,
    for [n < 32], the last [n] of [src], appended to [freeChunks] last one
    first, and otherwise the first [32 * (n / 32)] of [src], put in front
    of [freeChunks]; the other elements of both deques stay as they are. *)
Theorem C1_bulkDealloc_moves_blocks (src : Deque) (n : Z) (c : CentralFreeList.t) :
  wfa src -> wfa (CentralFreeList.freeChunks c) ->
  0 <= n <= size src ->
  (32 <= n -> n / 32 < nblocks src) ->
  size (CentralFreeList.freeChunks c) + n < 2 ^ 64 ->
  exists src' c',
    CentralFreeList.bulkDealloc src n c = Ok (src', c') /\
    size src' = size src - moved n /\
    size (CentralFreeList.freeChunks c') = size (CentralFreeList.freeChunks c) + moved n /\
    moved n = (if n <? 32 then n else 32 * (n / 32)) /\
    exists mv, Z.of_nat (length mv) = moved n /\
      if n <? 32
      then to_list src = to_list src' ++ reverse mv /\
           to_list (CentralFreeList.freeChunks c')
             = to_list (CentralFreeList.freeChunks c) ++ mv
      else to_list src = mv ++ to_list src' /\
           to_list (CentralFreeList.freeChunks c')
             = mv ++ to_list (CentralFreeList.freeChunks c).
Proof.
  intros Hs Hf Hn Hb Hfit.
  pose proof (size_count _ Hs) as Hss. pose proof (size_count _ Hf) as Hsf.
  pose proof (wfa_count_nonneg _ Hs). pose proof (wfa_count_nonneg _ Hf).
  assert (size src <= count src) as Hle.
  { rewrite Hss. unfold wrap64. Z.div_mod_to_equations. lia. }
  destruct (bulkDealloc_ok src n c) as (src' & c' & E & Hs' & Hf' & Hcs & Hcf & _); auto; [lia|].
  exists src', c'. split; [done|].
  pose proof (moved_le n) as Hm.
  rewrite (size_count _ Hs'), (size_count _ Hf'), Hcs, Hcf, Hss, Hsf in *.
  split_and!; [| |done|].
  - unfold wrap64 in *. Z.div_mod_to_equations. lia.
  - unfold wrap64 in *. Z.div_mod_to_equations. lia.
  - apply (bulkDealloc_to_list src n c); auto. lia.
Qed.

Lemma C1_bulkDealloc_moves_blocks_witness :
  exists src' c',
    CentralFreeList.bulkDealloc src64 33 (CentralFreeList.new 64 32) = Ok (src', c') /\
    size src' = size src64 - moved 33 /\
    size (CentralFreeList.freeChunks c')
      = size (CentralFreeList.freeChunks (CentralFreeList.new 64 32)) + moved 33 /\
    moved 33 = (if 33 <? 32 then 33 else 32 * (33 / 32)) /\
    exists mv, Z.of_nat (length mv) = moved 33 /\
      if 33 <? 32
      then to_list src64 = to_list src' ++ reverse mv /\
           to_list (CentralFreeList.freeChunks c')
             = to_list (CentralFreeList.freeChunks (CentralFreeList.new 64 32)) ++ mv
      else to_list src64 = mv ++ to_list src' /\
           to_list (CentralFreeList.freeChunks c')
             = mv ++ to_list (CentralFreeList.freeChunks (CentralFreeList.new 64 32)).
Proof.
  apply (C1_bulkDealloc_moves_blocks src64 33 (CentralFreeList.new 64 32)).
  - apply wfa_src64.
  - apply wfa_init.
  - vm_compute. split; discriminate.
  - intros _. vm_compute. reflexivity.
  - vm_compute. reflexivity.
Defined.

(** *** C2 *)

(** C2: [BankedCentralFreeList::dealloc(p)] calls [banks[rb()].dealloc()]
    with no argument, a call [CentralFreeList::dealloc], which takes the pointer, does not
    accept: whatever the bank drawn, [p] is not pushed on any bank. *)
Theorem C2_banked_dealloc_drops_pointer (NB randVal p : Z) (b : BankedCentralFreeList.t) :
  BankedCentralFreeList.dealloc NB randVal p b = Abort IllFormedCall \/
  BankedCentralFreeList.dealloc NB randVal p b = Abort OutOfBounds.
Proof.
  unfold BankedCentralFreeList.dealloc.
  destruct (get _ _) as [c|f] eqn:E; simpl; [by left|].
  right. unfold get in E. destruct (_ <? 0); [by injection E as <-|].
  destruct (_ !! _); [done|by injection E as <-].
Qed.

(** *** C3 *)

(** The fused operation agrees with [back()] and [pop_back()] on the deques
    the allocator keeps, whose head is on a block boundary. *)
Lemma dequeue_back_aligned (d : Deque) :
  wfa d -> blocks d <> [] -> count d < 2 ^ 64 ->
  dequeue_back d = (r ← back d; d' ← pop_back d; Ok (r, d')).
Proof.
  intros Hw Hne Hfit. pose proof Hw as (Hf & Hph & Hpt & Ha & H0 & H1)%wfa_char.
  assert (0 < nblocks d) as Hp.
  { unfold nblocks. destruct (blocks d); [done|simpl; lia]. }
  specialize (H1 Hp). clear H0.
  assert (single d = true <-> nblocks d = 1) as Hsingle.
  { unfold single, nblocks in *. destruct (blocks d) as [|? [|? ?]]; simpl in *; split; try done; lia. }
  assert (empty d = false) as Hemp by (unfold empty; by destruct (blocks d)).
  unfold dequeue_back, back, pop_back. rewrite Hemp. simpl.
  destruct (read_tail _ _) as [r|]; simpl; [|done].
  change (single {| blocks := blocks d; phead := phead d; ptail := wrap64 (ptail d - 1) |})
    with (single d).
  destruct (block_aligned (wrap64 (ptail d - 1))) eqn:Ept.
  - apply block_aligned_spec in Ept.
    assert ((ptail d - 1) mod 32 = 0) as Ept' by (unfold wrap64 in *; Z.div_mod_to_equations; lia).
    rewrite Ept' in H1.
    destruct (decide (nblocks d = 1)) as [Es|Hn1].
    + rewrite (proj2 Hsingle Es). rewrite Es in H1.
      assert ((phead d =? wrap64 (ptail d - 1)) = true) as ->; [|done].
      apply Z.eqb_eq. unfold wrap64 in *. Z.div_mod_to_equations. lia.
    + assert (single d = false) as ->.
      { destruct (single d); [|done]. destruct Hn1. by apply Hsingle. }
      assert ((phead d =? wrap64 (ptail d - 1)) = false) as ->; [|done].
      apply Z.eqb_neq. intros E.
      rewrite (count_char _ Hw), Ept' in Hfit.
      unfold wrap64 in *. Z.div_mod_to_equations. lia.
  - apply block_aligned_false in Ept.
    assert ((phead d =? wrap64 (ptail d - 1)) = false) as ->; [|done].
    apply Z.eqb_neq. intros E. rewrite <- E in Ept. done.
Qed.

(** C3: on the deque that [push_back(1); push_back(2); pop_front()] leaves,
    which is well formed with one element at position 1, [dequeue_back()]
    returns what [back()] returns, but [pop_back()] releases the block and
    resets the deque while [dequeue_back()] keeps the block and both
    counters: the deque is left with [size() == 0] and [empty()] false. *)
Theorem C3_dequeue_back_keeps_last_block :
  (d ← push_back 1 init; d ← push_back 2 d; pop_front d) = Ok d12 /\
  wf d12 /\ empty d12 = false /\
  back d12 = Ok 2 /\ pop_back d12 = Ok init /\
  exists d', dequeue_back d12 = Ok (2, d') /\
             d' <> init /\ blocks d' = blocks d12 /\ empty d' = false /\ size d' = 0.
Proof.
  split; [by vm_compute|]. split.
  { unfold wf, d12, count, used_slots, head_offset. simpl.
    split; [repeat constructor|]. split_and!; by vm_compute. }
  split; [done|]. split; [by vm_compute|]. split; [by vm_compute|].
  eexists. split; [by vm_compute|]. split_and!; by vm_compute.
Qed.

(** *** C4 *)



(** *** C5 *)

Lemma valid_chunk_spec (p : Z) (gs : AllocState) :
  valid_chunk p gs = true <-> trackedBase <= p <= trackedBump (region gs).
Proof. unfold valid_chunk. rewrite andb_true_iff, !Z.leb_le. done. Qed.

(** C5: [valid_chunk] compares with [<=]: it returns true for
    [p = trackedBump], the first address that has not been reserved. Right
    after initialization, with no byte reserved, it accepts [trackedBase]. *)
Theorem C5_valid_chunk_accepts_bump (sz : Z) (gs : AllocState) :
  __plsalloc_init sz None = Ok gs ->
  trackedBump (region gs) = trackedBase /\
  valid_chunk (trackedBump (region gs)) gs = true.
Proof.
  unfold __plsalloc_init. destruct (mmap _ _); cbn [negb]; [|done]. intros [= <-].
  split; [done|]. by vm_compute.
Qed.

Lemma C5_valid_chunk_accepts_bump_witness :
  trackedBump (region state0) = trackedBase /\
  valid_chunk (trackedBump (region state0)) state0 = true.
Proof. apply (C5_valid_chunk_accepts_bump sizeofAllocState0 state0). reflexivity. Defined.

(** *** C6 *)

Lemma initClassLists_lookup (cl : Z) :
  1 <= cl <= 255 ->
  get initClassLists cl
  = Ok (CentralFreeList.new (classToSize cl) (initElemsPerFetch cl)).
Proof.
  intros Hcl. apply get_ok. split; [lia|]. unfold initClassLists.
  replace (Z.to_nat cl) with (S (Z.to_nat (cl - 1))) by lia.
  rewrite lookup_cons, list_lookup_fmap, lookup_seqZ_lt by (unfold kMaxClasses; lia).
  simpl. do 3 f_equal; lia.
Qed.

(** C6, as stated, fails: for class 17 (chunks of 1088 bytes) bootstrap
    sets [elemsPerFetch] to 30, the quotient rounded down, where the
    rounded-up quotient clamped to [2, 32] is 31. *)
Lemma C6_class_17_fetches_30 :
  exists gs c,
    __plsalloc_init sizeofAllocState0 None = Ok gs /\
    get (classLists gs) 17 = Ok c /\
    CentralFreeList.elemsPerFetch c = 30 /\
    clamp (ceil_div 32768 (64 * 17)) 2 32 = 31.
Proof. eexists _, _. split; [apply init_state0|]. by vm_compute. Qed.

(** C6, amended: for every class [cl] in [1, 255], bootstrap constructs
    the central free list of [cl] with chunk size [64 * cl] and with
    [elemsPerFetch] the quotient [32768 / (64 * cl)] rounded down, clamped
    to [2, 32]. *)
Theorem C6_elemsPerFetch_at_bootstrap (sz : Z) (gs : AllocState) (cl : Z) :
  1 <= cl <= 255 -> __plsalloc_init sz None = Ok gs ->
  exists c, get (classLists gs) cl = Ok c /\
            CentralFreeList.chunkSize c = 64 * cl /\
            CentralFreeList.elemsPerFetch c = clamp (32768 / (64 * cl)) 2 32.
Proof.
  intros Hcl. unfold __plsalloc_init. destruct (mmap _ _); cbn [negb]; [|done].
  intros [= <-]. cbn [classLists]. rewrite (initClassLists_lookup cl Hcl).
  eexists. split; [reflexivity|]. unfold CentralFreeList.new. simpl.
  rewrite classToSize_small by lia. unfold initElemsPerFetch, kFetchTargetSize.
  rewrite classToSize_small by lia. unfold wrap32, clamp, DQBLOCK_SIZE.
  assert (0 <= 32 * 1024 / (64 * cl) <= 512).
  { split; [apply Z.div_pos; lia|]. apply Z.div_le_upper_bound; lia. }
  change (32 * 1024) with 32768 in *.
  rewrite (Z.mod_small (64 * cl)), (Z.mod_small (32768 / _)), (Z.mod_small 32) by lia.
  rewrite Z.mod_small by lia. lia.
Qed.

Lemma C6_elemsPerFetch_at_bootstrap_witness :
  exists c, get (classLists state0) 17 = Ok c /\
            CentralFreeList.chunkSize c = 64 * 17 /\
            CentralFreeList.elemsPerFetch c = clamp (32768 / (64 * 17)) 2 32.
Proof.
  apply (C6_elemsPerFetch_at_bootstrap sizeofAllocState0 state0 17); [lia|reflexivity].
Defined.

(** *** C7 *)

(** The classification of request sizes that do not wrap. *)
Lemma sizeToClass_spec (n : Z) :
  (1 <= n <= 16320 ->
     isLargeAlloc n = false /\ sizeToClass n = ceil_div n 64 /\
     1 <= sizeToClass n <= 255 /\ n <= classToSize (sizeToClass n)) /\
  (16321 <= n <= 2 ^ 64 - 64 -> isLargeAlloc n = true).
Proof.
  unfold isLargeAlloc, sizeToClass, ceil_div, kMaxClasses, wrap64.
  rewrite Z.shiftr_div_pow2 by lia. change (2 ^ 6) with 64. split; intros Hn.
  - rewrite Z.mod_small by lia. replace (n + 64 - 1) with (n + 63) by lia.
    assert (1 <= (n + 63) / 64 <= 255) by (Z.div_mod_to_equations; lia).
    rewrite classToSize_small by lia. split_and!; try lia.
    Z.div_mod_to_equations. lia.
  - rewrite Z.mod_small by lia. apply Z.leb_le. Z.div_mod_to_equations. lia.
Qed.

(** C7: the request size [2^64 - 1], the largest [size_t], is not served by
    the large heap: [sz + 63] wraps, [sizeToClass] returns 0 and
    [isLargeAlloc] false, and [do_alloc] takes the small path with class 0,
    where it reads through the null [btail] of an empty list. *)
Theorem C7_largest_request_takes_small_path :
  16321 <= 2 ^ 64 - 1 /\
  sizeToClass (2 ^ 64 - 1) = 0 /\ isLargeAlloc (2 ^ 64 - 1) = false /\
  do_alloc sizeofAllocState0 0 pick_first (2 ^ 64 - 1) None = Abort NullDeref /\
  do_alloc sizeofAllocState0 0 pick_first (2 ^ 64 - 1) (Some state0)
  = (tc ← get (threadCaches state0) 0;
     '(res, tc, central, r) ← ThreadCache.alloc 0 tc (classLists state0) (region state0);
     Ok (res, mkAllocState central (largeHeap state0) (set (threadCaches state0) 0 tc) r)).
Proof.
  split; [done|]. split; [done|]. split; [done|]. split; [by vm_compute|]. reflexivity.
Qed.

(** *** C8 *)

(** C8: every thread cache starts empty at initialization, and in every
    state reached from there by calls of the allocator's components that
    return (among them [ThreadCache::alloc(cl)] and
    [ThreadCache::dealloc(p, cl)] with its donation pass, for any thread,
    class and pointer), [cacheSize] is the sum over the classes [c] of
    [size(classLists[c]) * classToSize(c)]. *)
Theorem C8_cacheSize_is_bytes_held (sz : Z) (gs : AllocState) (tid : nat) (tc : ThreadCache.t) :
  reachable sz gs -> threadCaches gs !! tid = Some tc ->
  ThreadCache.cacheSize tc = wsum bytes_of 0 (ThreadCache.classLists tc).
Proof.
  intros (_ & _ & Htcs & _)%reachable_ok Htc. apply tc_ok_bytes.
  eapply Forall_lookup_1; eauto.
Qed.

Lemma C8_cacheSize_is_bytes_held_witness :
  ThreadCache.cacheSize small1.1.1.2 = 3968 /\
  ThreadCache.cacheSize small1.1.1.2 = wsum bytes_of 0 (ThreadCache.classLists small1.1.1.2).
Proof.
  split; [by vm_compute|].
  apply (C8_cacheSize_is_bytes_held sizeofAllocState0 stateT1 0%nat small1.1.1.2).
  - apply reachable_stateT1.
  - reflexivity.
Defined.

(** *** C9 *)



(** *** C10 *)

(** C10: in every state reached from initialization by calls of the
    allocator's components that return, every deque of every thread cache
    and the recycled deque of every central free list is well formed with
    [phead] divisible by 32, and neither [ThreadCache::alloc] with its
    [bulkAlloc], nor [ThreadCache::dealloc] with its donation pass and
    [bulkDealloc], nor [do_alloc] or [do_dealloc] stops on an assertion of
    the blocked deque: the preconditions of [splice_front] and
    [merge_front] hold at every call. *)
Theorem C10_deque_heads_stay_aligned (sz : Z) (gs : AllocState) :
  reachable sz gs ->
  (forall c, c ∈ classLists gs ->
     wf (CentralFreeList.freeChunks c) /\
     phead (CentralFreeList.freeChunks c) mod DQBLOCK_SIZE = 0) /\
  (forall tc d, tc ∈ threadCaches gs -> d ∈ ThreadCache.classLists tc ->
     wf d /\ phead d mod DQBLOCK_SIZE = 0) /\
  (forall tid tc cl, get (threadCaches gs) tid = Ok tc ->
     no_deque_failure (ThreadCache.alloc cl tc (classLists gs) (region gs))) /\
  (forall tid tc p cl, get (threadCaches gs) tid = Ok tc ->
     no_deque_failure (ThreadCache.dealloc p cl tc (classLists gs)) /\
     (0 <= cl < 256 -> is_ok (ThreadCache.dealloc p cl tc (classLists gs)))) /\
  (forall tid pick n, no_deque_failure (do_alloc sz tid pick n (Some gs))) /\
  (forall tid p, no_deque_failure (do_dealloc tid p gs)).
Proof.
  intros Hr. pose proof (reachable_ok _ _ Hr) as Hok.
  pose proof Hok as ((_ & Hcen) & _ & Htcs & _ & Hreg).
  rewrite Forall_forall in Hcen. rewrite Forall_forall in Htcs. split_and!.
  - intros c Hc. by destruct (Hcen c Hc) as ((? & ?) & _).
  - intros tc d Htc Hd. destruct (Htcs tc Htc) as (_ & Hwf & _).
    rewrite Forall_forall in Hwf. apply (Hwf d Hd).
  - intros tid tc cl [_ Htc%list_elem_of_lookup_2]%get_ok.
    apply alloc_spec; auto. by destruct Hok as (? & _).
  - intros tid tc p cl [_ Htc%list_elem_of_lookup_2]%get_ok.
    destruct Hok as (Hc & _). split; [apply tc_dealloc_safe; auto|].
    intros Hcl. by destruct (dealloc_ok p cl tc _ Hcl (Htcs tc Htc) Hc) as (? & ? & -> & _).
  - intros. by apply do_alloc_safe.
  - intros. by apply do_dealloc_safe.
Qed.

Lemma C10_deque_heads_stay_aligned_witness :
  (exists d, ThreadCache.classLists small1.1.1.2 !! 2%nat = Some d /\ size d = 31) /\
  (forall c, c ∈ classLists stateT1 ->
     wf (CentralFreeList.freeChunks c) /\
     phead (CentralFreeList.freeChunks c) mod DQBLOCK_SIZE = 0) /\
  (forall tc d, tc ∈ threadCaches stateT1 -> d ∈ ThreadCache.classLists tc ->
     wf d /\ phead d mod DQBLOCK_SIZE = 0) /\
  (forall tid tc cl, get (threadCaches stateT1) tid = Ok tc ->
     no_deque_failure (ThreadCache.alloc cl tc (classLists stateT1) (region stateT1))) /\
  (forall tid tc p cl, get (threadCaches stateT1) tid = Ok tc ->
     no_deque_failure (ThreadCache.dealloc p cl tc (classLists stateT1)) /\
     (0 <= cl < 256 -> is_ok (ThreadCache.dealloc p cl tc (classLists stateT1)))) /\
  (forall tid pick n,
     no_deque_failure (do_alloc sizeofAllocState0 tid pick n (Some stateT1))) /\
  (forall tid p, no_deque_failure (do_dealloc tid p stateT1)).
Proof.
  split.
  - eexists. split; [by vm_compute|]. by vm_compute.
  - apply (C10_deque_heads_stay_aligned sizeofAllocState0 stateT1), reachable_stateT1.
Defined.

End Claims.
